(** * Atoms: the active set of a Frank-Wolfe type solver

    Shallow embedding of [class Atoms] from [src/fw/atoms.hpp]:
    [AddAtom], [RecoverVector], [PruneSupport],
    [ProjectedGradientEnhancement] and the private [ProjectionToL1].

    Numbers.  The C++ code computes on [double].  The embedding computes on
    exact rationals [Q]: every arithmetic step is the one the source writes,
    without rounding.  The one place where exact arithmetic has no value for
    what IEEE arithmetic returns, a division by zero, is an explicit error
    of the embedding ([DivisionByZero]): the compiled code does not stop
    there, it goes on with an infinity and sets every coefficient to zero
    ([ProjectionToL1_inf]).  What is proved on [Q] is either structural
    (which matrices and vectors are stored, in what sizes, how a call
    ends) or stated as a fact of exact arithmetic.  Module [Binary64], at
    the end of the definitions, is the projection on IEEE binary64 floats:
    what the statements say of the rounding of the compiled code is said
    of it.

    Armadillo.  Vectors are lists, a matrix is a row count with its list of
    columns.  The conformance checks Armadillo performs (and answers with an
    exception) are written out as results in the error type below. *)

From Stdlib Require Import List Arith ZArith QArith Qabs Lia Lqa Bool.
From Stdlib Require Import Permutation Sorted.
From Stdlib Require Floats.
Import ListNotations.

Open Scope Q_scope.

(** ** Results of fallible code *)

Inductive error : Type :=
| SizeMismatch      (* Armadillo: incompatible dimensions *)
| EmptyMin          (* min(): object has no elements *)
| IndexOutOfBounds  (* shed_col()/shed_row(): index out of bounds *)
| SolveFailed       (* solve(): solution not found *)
| DivisionByZero    (* x / 0 has no exact value *)
| Uninitialised.    (* a local read before any assignment *)

Inductive result (A : Type) : Type :=
| OK (a : A)
| Err (e : error).

Arguments OK {A} a.
Arguments Err {A} e.

(** Code that mutates a state [S] and may throw: the state survives the
    exception, as the members of an object do. *)
Definition M (S A : Type) : Type := S -> S * result A.

Definition ret {S A : Type} (a : A) : M S A := fun s => (s, OK a).

Definition bind {S A B : Type} (m : M S A) (k : A -> M S B) : M S B :=
  fun s =>
    match m s with
    | (s', OK a) => k a s'
    | (s', Err e) => (s', Err e)
    end.

Definition lift {S A : Type} (r : result A) : M S A := fun s => (s, r).
Definition gets {S A : Type} (proj : S -> A) : M S A := fun s => (s, OK (proj s)).
Definition modify {S : Type} (upd : S -> S) : M S unit := fun s => (upd s, OK tt).

Notation "x <- m ;; k" := (bind m (fun x => k))
  (at level 61, m at next level, right associativity).

(** How a call ends.  [Stuck] is the embedding running out of fuel; the
    theorems below show that the entry points never end that way. *)
Inductive exit : Type :=
| Return
| Throw (e : error)
| Stuck.

Definition Qlt_bool (x y : Q) : bool := negb (Qle_bool y x).

(** [size_t] to [double] *)
Definition of_size_t (n : nat) : Q := inject_Z (Z.of_nat n).

(** ** The part of Armadillo the class uses *)

Module Arma.

Definition vec : Type := list Q.

Record mat : Type := mkMat { n_rows : nat; cols : list vec }.

Definition n_cols (m : mat) : nat := length (cols m).
Definition n_elem (m : mat) : nat := (n_rows m * n_cols m)%nat.
Definition is_empty (m : mat) : bool := (n_elem m =? 0)%nat.

(** A column vector seen as a [d x 1] matrix. *)
Definition colvec (v : vec) : mat := mkMat (length v) [v].

(** The default-constructed [0 x 0] matrix. *)
Definition mat0 : mat := mkMat 0 [].

Definition zeros (n : nat) : vec := repeat 0 n.

Definition square (v : vec) : vec := map (fun a => a * a) v.
Definition abs (v : vec) : vec := map Qabs v.
Definition scale (k : Q) (v : vec) : vec := map (fun a => k * a) v.

Fixpoint accu (v : vec) : Q :=
  match v with
  | [] => 0
  | a :: v' => a + accu v'
  end.

Fixpoint cumsum_from (acc : Q) (v : vec) : vec :=
  match v with
  | [] => []
  | a :: v' => (acc + a) :: cumsum_from (acc + a) v'
  end.

Definition cumsum (v : vec) : vec := cumsum_from 0 v.

(** [sort(v, "descend")] *)
Fixpoint insert_descend (a : Q) (v : vec) : vec :=
  match v with
  | [] => [a]
  | b :: v' => if Qle_bool b a then a :: v else b :: insert_descend a v'
  end.

Fixpoint sort_descend (v : vec) : vec :=
  match v with
  | [] => []
  | a :: v' => insert_descend a (sort_descend v')
  end.

(** Element-wise operations on two vectors; sizes are checked. *)
Fixpoint zip_with (op : Q -> Q -> Q) (a b : vec) : vec :=
  match a, b with
  | x :: a', y :: b' => op x y :: zip_with op a' b'
  | _, _ => []
  end.

Definition ewise (op : Q -> Q -> Q) (a b : vec) : result vec :=
  if (length a =? length b)%nat then OK (zip_with op a b) else Err SizeMismatch.

Definition dot (a b : vec) : Q := accu (zip_with Qmult a b).

(** [m * v]: the combination of the columns of [m] with the weights [v],
    accumulated onto [zeros (n_rows m)]. *)
Fixpoint lincomb (acc : vec) (cs : list vec) (v : vec) : vec :=
  match cs, v with
  | c :: cs', k :: v' => lincomb (zip_with Qplus acc (scale k c)) cs' v'
  | _, _ => acc
  end.

Definition mat_vec (m : mat) (v : vec) : result vec :=
  if (n_cols m =? length v)%nat
  then OK (lincomb (zeros (n_rows m)) (cols m) v)
  else Err SizeMismatch.

(** [a * b] for matrices, column by column. *)
Definition mat_mul (a b : mat) : result mat :=
  if (n_cols a =? n_rows b)%nat
  then OK (mkMat (n_rows a)
             (map (fun c => lincomb (zeros (n_rows a)) (cols a) c) (cols b)))
  else Err SizeMismatch.

(** [trans(g.t() * m)], equally [m.t() * g]: one dot product per column. *)
Definition trans_mul (m : mat) (g : vec) : result vec :=
  if (n_rows m =? length g)%nat
  then OK (map (fun c => dot c g) (cols m))
  else Err SizeMismatch.

(** [sum(square(m), 0)]: the squared norm of every column. *)
Definition sum_square_cols (m : mat) : vec :=
  map (fun c => accu (square c)) (cols m).

(** [v.min(ind)]: index of the first smallest entry. *)
Fixpoint min_from (best : Q) (besti i : nat) (v : vec) : nat :=
  match v with
  | [] => besti
  | a :: v' =>
      if Qlt_bool a best then min_from a i (S i) v'
      else min_from best besti (S i) v'
  end.

Definition min_index (v : vec) : result nat :=
  match v with
  | [] => Err EmptyMin
  | a :: v' => OK (min_from a 0%nat 1%nat v')
  end.

Fixpoint remove_nth {A : Type} (i : nat) (l : list A) : list A :=
  match l, i with
  | [], _ => []
  | _ :: l', O => l'
  | a :: l', S i' => a :: remove_nth i' l'
  end.

Definition shed_col (m : mat) (ind : nat) : result mat :=
  if (ind <? n_cols m)%nat
  then OK (mkMat (n_rows m) (remove_nth ind (cols m)))
  else Err IndexOutOfBounds.

Definition shed_row (v : vec) (ind : nat) : result vec :=
  if (ind <? length v)%nat then OK (remove_nth ind v) else Err IndexOutOfBounds.

(** [t.insert_cols(0, c)] *)
Definition nonnull (m : mat) : bool := (0 <? n_rows m)%nat || (0 <? n_cols m)%nat.

Definition insert_cols0 (t c : mat) : result mat :=
  if negb (n_rows c =? n_rows t)%nat && nonnull t && nonnull c
  then Err SizeMismatch
  else OK (mkMat (Nat.max (n_rows t) (n_rows c)) (cols c ++ cols t)).

End Arma.

Import Arma.

(** ** The objective *)

(** What the template parameter [FunctionType] provides. *)
Record FunctionType : Type := mkFunction {
  Evaluate : vec -> Q;
  Gradient : vec -> vec
}.

(** [FuncSq] (func_sq.hpp, not part of the sources at hand): a
    [FunctionType] that also exposes its matrix and its right-hand side. *)
Record FuncSq : Type := mkFuncSq {
  base :> FunctionType;
  MatrixA : mat;
  Vectorb : vec
}.

(** ** class Atoms *)

Record Atoms : Type := mkAtoms {
  currentCoeffs : vec;
  currentAtoms : mat
}.

(** [Atoms(){}] *)
Definition empty_Atoms : Atoms := mkAtoms [] mat0.

Definition AddAtom (st : Atoms) (v : mat) (c : Q) : result Atoms :=
  if is_empty (currentAtoms st)
  then OK (mkAtoms [c] v)
  else
    match insert_cols0 (currentAtoms st) v with
    | OK atoms => OK (mkAtoms (c :: currentCoeffs st) atoms)
    | Err e => Err e
    end.

Definition RecoverVector (st : Atoms) : result vec :=
  mat_vec (currentAtoms st) (currentCoeffs st).

(** *** ProjectionToL1 *)

(** The pivot search [for (j = 1; j <= n_rows; j++)], counted by the
    number [k] of iterations left, so that [rho = n_rows - j] is [k - 1].
    [rho] carries the last value assigned, [None] before the first one. *)
Fixpoint pivot_scan (simplexSol simplexSum : vec) (tau : Q) (k : nat)
    (rho : option nat) : option nat :=
  match k with
  | O => rho
  | S rho' =>
      let nu := nth rho' simplexSol 0
                - (nth rho' simplexSum 0 - tau) / of_size_t (rho' + 1) in
      if Qlt_bool 0 nu then Some rho'
      else pivot_scan simplexSol simplexSum tau rho' (Some rho')
  end.

(** [std::max(a, b)] and [std::min(a, b)] *)
Definition std_max (a b : Q) : Q := if Qlt_bool a b then b else a.
Definition std_min (a b : Q) : Q := if Qlt_bool b a then b else a.

Definition threshold (theta c : Q) : Q :=
  if Qle_bool 0 c then std_max (c - theta) 0 else std_min (c + theta) 0.

Definition ProjectionToL1 (tau : Q) (coeffs : vec) : result vec :=
  let simplexSol := abs coeffs in
  if Qle_bool (accu simplexSol) tau then OK coeffs
  else
    let simplexSol := sort_descend simplexSol in
    let simplexSum := cumsum simplexSol in
    match pivot_scan simplexSol simplexSum tau (length simplexSol) None with
    | None => Err Uninitialised
    | Some rho =>
        if (rho =? 0)%nat then Err DivisionByZero
        else
          let theta := (nth rho simplexSum 0 - tau) / of_size_t rho in
          OK (map (threshold theta) coeffs)
    end.

(** *** PruneSupport *)

(** What the instrumented embedding records of a call: the atom matrix at
    each gradient evaluation and the trial matrix handed to each refit. *)
Inductive event : Type :=
| GradientAt (atoms : mat)
| Refit (newAtoms : mat).

(** The object, the local [atomSqTerm], and the record of events. *)
Record prune_state : Type := mkPrune {
  self : Atoms;
  atomSqTerm : vec;
  trace : list event
}.

Definition emit (ev : event) : M prune_state unit :=
  modify (fun s => mkPrune (self s) (atomSqTerm s) (trace s ++ [ev])).

Section WithSolver.

(** [arma::solve(A, b)]: a least-squares solution, or an exception. *)
Variable solve : mat -> vec -> result vec.

(** The three statements before the loop. *)
Definition init_atomSqTerm (f : FuncSq) (st : Atoms) : result vec :=
  match mat_mul (MatrixA f) (currentAtoms st) with
  | Err e => Err e
  | OK m =>
      ewise Qmult (scale (1 # 2) (sum_square_cols m)) (square (currentCoeffs st))
  end.

(** One pass through the body of [while (true)]; [false] is [break]. *)
Definition prune_body (F : Q) (f : FuncSq) : M prune_state bool :=
  st <- gets self ;;
  sq <- gets atomSqTerm ;;
  x <- lift (RecoverVector st) ;;
  _ <- emit (GradientAt (currentAtoms st)) ;;
  let gradient := Gradient f x in
  tg <- lift (trans_mul (currentAtoms st) gradient) ;;
  cg <- lift (ewise Qmult (currentCoeffs st) tg) ;;
  gap <- lift (ewise Qminus sq cg) ;;
  ind <- lift (min_index gap) ;;
  newAtoms <- lift (shed_col (currentAtoms st) ind) ;;
  an <- lift (mat_mul (MatrixA f) newAtoms) ;;
  _ <- emit (Refit newAtoms) ;;
  newCoeffs <- lift (solve an (Vectorb f)) ;;
  xnew <- lift (mat_vec newAtoms newCoeffs) ;;
  let Fnew := Evaluate f xnew in
  if Qlt_bool F Fnew then ret false
  else
    _ <- modify (fun s => mkPrune (mkAtoms newCoeffs newAtoms)
                                  (atomSqTerm s) (trace s)) ;;
    sq' <- lift (shed_row sq ind) ;;
    _ <- modify (fun s => mkPrune (self s) sq' (trace s)) ;;
    ret true.

Fixpoint prune_loop (fuel : nat) (F : Q) (f : FuncSq) (s : prune_state)
    : prune_state * exit :=
  match fuel with
  | O => (s, Stuck)
  | S fuel' =>
      match prune_body F f s with
      | (s', OK true) => prune_loop fuel' F f s'
      | (s', OK false) => (s', Return)
      | (s', Err e) => (s', Throw e)
      end
  end.

Definition PruneSupport (F : Q) (f : FuncSq) (st : Atoms) : prune_state * exit :=
  match init_atomSqTerm f st with
  | Err e => (mkPrune st [] [], Throw e)
  | OK sq => prune_loop (S (n_cols (currentAtoms st))) F f (mkPrune st sq [])
  end.

End WithSolver.

(** *** ProjectedGradientEnhancement *)

(** The object and the number of times the loop body was entered. *)
Record pge_state : Type := mkPge {
  this : Atoms;
  steps : nat
}.

(** The loop body, from the locals [x] and [value]; [None] is [break],
    [Some (x, value)] the locals of the next iteration. *)
Definition pge_body (f : FunctionType) (tau stepSize tolerance : Q)
    (x : vec) (value : Q) : M pge_state (option (vec * Q)) :=
  _ <- modify (fun s => mkPge (this s) (S (steps s))) ;;
  st <- gets this ;;
  let g := Gradient f x in
  g <- lift (trans_mul (currentAtoms st) g) ;;
  coeffs <- lift (ewise Qminus (currentCoeffs st) (scale stepSize g)) ;;
  _ <- modify (fun s => mkPge (mkAtoms coeffs (currentAtoms st)) (steps s)) ;;
  coeffs <- lift (ProjectionToL1 tau coeffs) ;;
  _ <- modify (fun s => mkPge (mkAtoms coeffs (currentAtoms st)) (steps s)) ;;
  x <- lift (RecoverVector (mkAtoms coeffs (currentAtoms st))) ;;
  let valueNew := Evaluate f x in
  if Qlt_bool (value - valueNew) tolerance then ret None
  else ret (Some (x, valueNew)).

Fixpoint pge_loop (fuel : nat) (f : FunctionType) (tau stepSize : Q)
    (maxIteration : nat) (tolerance : Q) (iter : nat) (x : vec) (value : Q)
    (s : pge_state) : pge_state * exit :=
  match fuel with
  | O => (s, Stuck)
  | S fuel' =>
      if (iter <? maxIteration)%nat then
        match pge_body f tau stepSize tolerance x value s with
        | (s', OK (Some (x', value'))) =>
            pge_loop fuel' f tau stepSize maxIteration tolerance (S iter) x' value' s'
        | (s', OK None) => (s', Return)
        | (s', Err e) => (s', Throw e)
        end
      else (s, Return)
  end.

Definition ProjectedGradientEnhancement (f : FunctionType) (tau stepSize : Q)
    (maxIteration : nat) (tolerance : Q) (st : Atoms) : pge_state * exit :=
  match RecoverVector st with
  | Err e => (mkPge st 0, Throw e)
  | OK x =>
      let value := Evaluate f x in
      pge_loop (S maxIteration) f tau stepSize maxIteration tolerance 1 x value
        (mkPge st 0)
  end.

(** The projection carried through the division by zero as the compiled
    code carries it: with [rho = 0] the quotient is an infinity, and the
    thresholding loop sets every coefficient to zero. *)
Definition ProjectionToL1_inf (tau : Q) (coeffs : vec) : result vec :=
  match ProjectionToL1 tau coeffs with
  | Err DivisionByZero => OK (map (fun _ => 0) coeffs)
  | r => r
  end.

(** [ProjectedGradientEnhancement] over a given projection [proj] in the
    place of [ProjectionToL1]. *)
Definition pge_body_with (proj : Q -> vec -> result vec) (f : FunctionType)
    (tau stepSize tolerance : Q) (x : vec) (value : Q)
    : M pge_state (option (vec * Q)) :=
  _ <- modify (fun s => mkPge (this s) (S (steps s))) ;;
  st <- gets this ;;
  let g := Gradient f x in
  g <- lift (trans_mul (currentAtoms st) g) ;;
  coeffs <- lift (ewise Qminus (currentCoeffs st) (scale stepSize g)) ;;
  _ <- modify (fun s => mkPge (mkAtoms coeffs (currentAtoms st)) (steps s)) ;;
  coeffs <- lift (proj tau coeffs) ;;
  _ <- modify (fun s => mkPge (mkAtoms coeffs (currentAtoms st)) (steps s)) ;;
  x <- lift (RecoverVector (mkAtoms coeffs (currentAtoms st))) ;;
  let valueNew := Evaluate f x in
  if Qlt_bool (value - valueNew) tolerance then ret None
  else ret (Some (x, valueNew)).

Fixpoint pge_loop_with (proj : Q -> vec -> result vec) (fuel : nat)
    (f : FunctionType) (tau stepSize : Q) (maxIteration : nat) (tolerance : Q)
    (iter : nat) (x : vec) (value : Q) (s : pge_state) : pge_state * exit :=
  match fuel with
  | O => (s, Stuck)
  | S fuel' =>
      if (iter <? maxIteration)%nat then
        match pge_body_with proj f tau stepSize tolerance x value s with
        | (s', OK (Some (x', value'))) =>
            pge_loop_with proj fuel' f tau stepSize maxIteration tolerance
              (S iter) x' value' s'
        | (s', OK None) => (s', Return)
        | (s', Err e) => (s', Throw e)
        end
      else (s, Return)
  end.

Definition ProjectedGradientEnhancement_with (proj : Q -> vec -> result vec)
    (f : FunctionType) (tau stepSize : Q) (maxIteration : nat) (tolerance : Q)
    (st : Atoms) : pge_state * exit :=
  match RecoverVector st with
  | Err e => (mkPge st 0, Throw e)
  | OK x =>
      let value := Evaluate f x in
      pge_loop_with proj (S maxIteration) f tau stepSize maxIteration tolerance
        1 x value (mkPge st 0)
  end.

(** ** Concrete collaborators

    Used to run the class on concrete inputs. *)

(** Modelled from the spec: the least-squares objective of func_sq.hpp,
    which is not among the sources; the spec gives
    [f(x) = 0.5 * ||A x - b||^2], whose gradient is [A^T (A x - b)]. *)
Definition residual (a : mat) (b x : vec) : vec :=
  zip_with Qminus (lincomb (zeros (n_rows a)) (cols a) x) b.

Definition least_squares (a : mat) (b : vec) : FuncSq :=
  mkFuncSq
    (mkFunction
       (fun x => (1 # 2) * accu (square (residual a b x)))
       (fun x => map (fun c => dot c (residual a b x)) (cols a)))
    a b.

(** A least-squares solver for systems with at most one unknown: no
    unknown has the empty solution, one unknown [c * t ~ b] has
    [t = <c, b> / <c, c>]. *)
Definition solve_le1 (a : mat) (b : vec) : result vec :=
  if negb (n_rows a =? length b)%nat then Err SizeMismatch
  else
    match cols a with
    | [] => OK []
    | [c] =>
        if Qeq_bool (dot c c) 0 then Err SolveFailed
        else OK [dot c b / dot c c]
    | _ => Err SolveFailed
    end.

(** The coefficients of the worked example of the specification. *)
Definition example_coeffs : vec := [7 # 10; 5 # 10; - 9 # 10].

(** The objective [0.5 * (x - 1)^2] in one dimension, the set holding the
    atom [(1)] with coefficient 1, and the set holding that atom twice
    with coefficients 1/2 and 1/2. *)
Definition unit_objective : FuncSq := least_squares (colvec [1]) [1].
Definition single_atom : Atoms := mkAtoms [1] (colvec [1]).
Definition twin_atoms : Atoms := mkAtoms [1 # 2; 1 # 2] (mkMat 1 [[1]; [1]]).

(** ** The projection on binary64 floats

    [ProjectionToL1] once more, on the IEEE 754 binary64 numbers the compiled
    code computes with.  Division is total here: [x / 0] is an infinity or a
    NaN, and the thresholding loop runs on with it.  The sum [accu] of line
    167 is a parameter of the definition: Armadillo accumulates it in two
    interleaved partial sums ([accu_pairs]); the plain left-to-right sum
    ([accu_seq]) is given beside it, and the statements below hold for
    both.  The running sums of [cumsum] are accumulated from left to
    right. *)

Module Binary64.

Import Floats.

Definition fvec : Type := list float.

Fixpoint accu (v : fvec) (acc : float) : float :=
  match v with
  | [] => acc
  | a :: v' => accu v' (acc + a)%float
  end.

Definition accu_seq (v : fvec) : float := accu v 0%float.

(** Two accumulators, fed alternately, added at the end. *)
Fixpoint accumulate_from (acc1 acc2 : float) (v : fvec) : float :=
  match v with
  | a :: b :: v' => accumulate_from (acc1 + a)%float (acc2 + b)%float v'
  | [a] => ((acc1 + a) + acc2)%float
  | [] => (acc1 + acc2)%float
  end.

Definition accu_pairs (v : fvec) : float := accumulate_from 0%float 0%float v.

Fixpoint cumsum_from (acc : float) (v : fvec) : fvec :=
  match v with
  | [] => []
  | a :: v' => (acc + a)%float :: cumsum_from (acc + a)%float v'
  end.

Definition cumsum (v : fvec) : fvec := cumsum_from 0%float v.

Fixpoint insert_descend (a : float) (v : fvec) : fvec :=
  match v with
  | [] => [a]
  | b :: v' => if PrimFloat.leb b a then a :: v else b :: insert_descend a v'
  end.

Fixpoint sort_descend (v : fvec) : fvec :=
  match v with
  | [] => []
  | a :: v' => insert_descend a (sort_descend v')
  end.

Definition of_size_t (n : nat) : float :=
  PrimFloat.of_uint63 (Uint63.of_Z (Z.of_nat n)).

Fixpoint pivot_scan (simplexSol simplexSum : fvec) (tau : float) (k : nat)
    (rho : option nat) : option nat :=
  match k with
  | O => rho
  | S rho' =>
      let nu := (nth rho' simplexSol 0 -
                 (nth rho' simplexSum 0 - tau) / of_size_t (rho' + 1))%float in
      if PrimFloat.ltb 0 nu then Some rho'
      else pivot_scan simplexSol simplexSum tau rho' (Some rho')
  end.

Definition std_max (a b : float) : float := if PrimFloat.ltb a b then b else a.
Definition std_min (a b : float) : float := if PrimFloat.ltb b a then b else a.

Definition threshold (theta c : float) : float :=
  if PrimFloat.leb 0 c then std_max (c - theta) 0 else std_min (c + theta) 0.

(** The sorted absolute values and their running sums. *)
Definition sorted_abs (coeffs : fvec) : fvec :=
  sort_descend (map PrimFloat.abs coeffs).

(** The result of the pivot search on [coeffs]. *)
Definition pivot (tau : float) (coeffs : fvec) : option nat :=
  pivot_scan (sorted_abs coeffs) (cumsum (sorted_abs coeffs)) tau
    (length (sorted_abs coeffs)) None.

(** [theta] as line 182 computes it from the pivot [rho]. *)
Definition theta_at (tau : float) (coeffs : fvec) (rho : nat) : float :=
  ((nth rho (cumsum (sorted_abs coeffs)) 0 - tau) / of_size_t rho)%float.

(** [None]: [rho] is read without ever having been assigned. *)
Definition ProjectionToL1_with (sum : fvec -> float) (tau : float)
    (coeffs : fvec) : option fvec :=
  let simplexSol := map PrimFloat.abs coeffs in
  if PrimFloat.leb (sum simplexSol) tau then Some coeffs
  else
    let simplexSol := sort_descend simplexSol in
    let simplexSum := cumsum simplexSol in
    match pivot_scan simplexSol simplexSum tau (length simplexSol) None with
    | None => None
    | Some rho =>
        let theta := ((nth rho simplexSum 0 - tau) / of_size_t rho)%float in
        Some (map (threshold theta) coeffs)
    end.

Definition ProjectionToL1 : float -> fvec -> option fvec :=
  ProjectionToL1_with accu_pairs.

(** Applying the projection twice. *)
Definition twice (sum : fvec -> float) (tau : float) (coeffs : fvec)
    : option fvec :=
  match ProjectionToL1_with sum tau coeffs with
  | Some out => ProjectionToL1_with sum tau out
  | None => None
  end.

(** The doubles nearest to 0.7, 0.5 and -0.9. *)
Definition example_coeffs : fvec :=
  [0x1.6666666666666p-1; 0x1p-1; -0x1.ccccccccccccdp-1]%float.

End Binary64.

(** ** Vocabulary of the statements *)

(** Equality of vectors up to the equality of rationals. *)
Definition vec_eq (a b : vec) : Prop := Forall2 Qeq a b.

Definition descending : vec -> Prop := StronglySorted (fun a b => b <= a).

(** The quantity the pivot search tests at index [j]. *)
Definition nu_at (sol sum : vec) (tau : Q) (j : nat) : Q :=
  nth j sol 0 - (nth j sum 0 - tau) / of_size_t (j + 1).

(** The invariant of the class: one coefficient per atom. *)
Definition coeffs_match (st : Atoms) : Prop :=
  length (currentCoeffs st) = n_cols (currentAtoms st).

(** What one trial deletion computes from the object [st] and the scores
    [sq]: the index, the trial matrix, the refitted coefficients and the
    objective value. *)
Definition trial_yields (solve : mat -> vec -> result vec) (f : FuncSq)
    (st : Atoms) (sq : vec) (ind : nat) (newAtoms : mat)
    (newCoeffs : vec) (Fnew : Q) : Prop :=
  exists x tg cg gap an xnew,
    RecoverVector st = OK x
    /\ trans_mul (currentAtoms st) (Gradient f x) = OK tg
    /\ ewise Qmult (currentCoeffs st) tg = OK cg
    /\ ewise Qminus sq cg = OK gap
    /\ min_index gap = OK ind
    /\ shed_col (currentAtoms st) ind = OK newAtoms
    /\ mat_mul (MatrixA f) newAtoms = OK an
    /\ solve an (Vectorb f) = OK newCoeffs
    /\ mat_vec newAtoms newCoeffs = OK xnew
    /\ Fnew = Evaluate f xnew.

(** The part of a trial deletion that precedes the refit: the index chosen,
    the trial matrix and the matrix handed to the solver. *)
Definition trial_refits (f : FuncSq) (st : Atoms) (sq : vec) (ind : nat)
    (newAtoms an : mat) : Prop :=
  exists x tg cg gap,
    RecoverVector st = OK x
    /\ trans_mul (currentAtoms st) (Gradient f x) = OK tg
    /\ ewise Qmult (currentCoeffs st) tg = OK cg
    /\ ewise Qminus sq cg = OK gap
    /\ min_index gap = OK ind
    /\ shed_col (currentAtoms st) ind = OK newAtoms
    /\ mat_mul (MatrixA f) newAtoms = OK an.

(** A state whose recovered vector is within the threshold [F]. *)
Definition within_threshold (F : Q) (f : FunctionType) (st : Atoms) : Prop :=
  exists x, RecoverVector st = OK x /\ Evaluate f x <= F.

(** The atom matrix an event was recorded on. *)
Definition event_matrix (ev : event) : mat :=
  match ev with
  | GradientAt atoms => atoms
  | Refit newAtoms => newAtoms
  end.


(** [a] is [b] with some of its entries left out, the others in place. *)
Inductive subseq {A : Type} : list A -> list A -> Prop :=
| subseq_nil : subseq [] []
| subseq_keep (x : A) (a b : list A) : subseq a b -> subseq (x :: a) (x :: b)
| subseq_drop (x : A) (a b : list A) : subseq a b -> subseq a (x :: b).

(** The number of refits among the recorded events. *)
Definition is_refit (ev : event) : bool :=
  match ev with
  | Refit _ => true
  | GradientAt _ => false
  end.

Definition refit_count (tr : list event) : nat := length (filter is_refit tr).

(** A caller adding atoms one after the other, stopping at the first
    exception. *)
Fixpoint AddAtoms (st : Atoms) (l : list (vec * Q)) : result Atoms :=
  match l with
  | [] => OK st
  | (v, c) :: l' =>
      match AddAtom st (colvec v) c with
      | OK st' => AddAtoms st' l'
      | Err e => Err e
      end
  end.

(** The coefficients of [st] are what the solver returns for its atoms. *)
Definition refitted (solve : mat -> vec -> result vec) (f : FuncSq)
    (st : Atoms) : Prop :=
  exists an,
    mat_mul (MatrixA f) (currentAtoms st) = OK an
    /\ solve an (Vectorb f) = OK (currentCoeffs st).

(** * Properties *)

(** ** Comparisons and sums of rationals *)

Lemma Qle_bool_spec (x y : Q) : BoolSpec (x <= y) (y < x) (Qle_bool x y).
Proof.
  destruct (Qle_bool x y) eqn:E; constructor.
  - now apply Qle_bool_iff.
  - apply Qnot_le_lt. intro H. apply Qle_bool_iff in H. congruence.
Qed.

Lemma Qlt_bool_spec (x y : Q) : BoolSpec (x < y) (y <= x) (Qlt_bool x y).
Proof.
  unfold Qlt_bool. destruct (Qle_bool_spec y x); constructor; assumption.
Qed.

Ltac qcases :=
  repeat match goal with
  | |- context [Qle_bool ?a ?b] => destruct (Qle_bool_spec a b)
  | |- context [Qlt_bool ?a ?b] => destruct (Qlt_bool_spec a b)
  end.

Lemma of_size_t_S (n : nat) : of_size_t (S n) == of_size_t n + 1.
Proof.
  unfold of_size_t. rewrite Nat2Z.inj_succ, <- Z.add_1_r, inject_Z_plus.
  reflexivity.
Qed.

Lemma of_size_t_pos (n : nat) : (0 < n)%nat -> 0 < of_size_t n.
Proof.
  intro H. unfold of_size_t. change 0 with (inject_Z 0).
  rewrite <- Zlt_Qlt. lia.
Qed.

Lemma accu_app (a b : vec) : accu (a ++ b) == accu a + accu b.
Proof.
  induction a as [|x a IH]; simpl.
  - lra.
  - rewrite IH. lra.
Qed.

Lemma accu_Forall2 (a b : vec) : vec_eq a b -> accu a == accu b.
Proof.
  induction 1 as [|x y a b Hxy _ IH]; simpl.
  - reflexivity.
  - rewrite Hxy, IH. reflexivity.
Qed.

Lemma accu_perm (a b : vec) : Permutation a b -> accu a == accu b.
Proof.
  induction 1 as [| x a b _ IH | x y a | a b c _ IH1 _ IH2]; simpl.
  - reflexivity.
  - rewrite IH. reflexivity.
  - lra.
  - rewrite IH1. exact IH2.
Qed.

Lemma accu_le_pointwise (f g : Q -> Q) (v : vec) :
  Forall (fun a => f a <= g a) v -> accu (map f v) <= accu (map g v).
Proof.
  induction 1 as [|a v Ha _ IH]; simpl.
  - lra.
  - lra.
Qed.

Lemma accu_zero_pointwise (f : Q -> Q) (v : vec) :
  Forall (fun a => f a == 0) v -> accu (map f v) == 0.
Proof.
  induction 1 as [|a v Ha _ IH]; simpl.
  - reflexivity.
  - rewrite Ha, IH. lra.
Qed.

Lemma accu_shift (t : Q) (v : vec) :
  accu (map (fun a => a - t) v) == accu v - of_size_t (length v) * t.
Proof.
  induction v as [|a v IH].
  - cbn [map accu length]. change (of_size_t 0) with 0. lra.
  - cbn [map accu length]. rewrite IH, of_size_t_S. lra.
Qed.

Lemma accu_firstn_S (v : vec) (j : nat) :
  accu (firstn (S j) v) == accu (firstn j v) + nth j v 0.
Proof.
  revert j. induction v as [|a v IH]; intros [|j].
  - simpl. lra.
  - simpl. lra.
  - simpl. lra.
  - change (firstn (S (S j)) (a :: v)) with (a :: firstn (S j) v).
    change (firstn (S j) (a :: v)) with (a :: firstn j v).
    cbn [accu nth]. rewrite IH. lra.
Qed.

Lemma nth_cumsum_from (v : vec) (acc : Q) (j : nat) :
  (j < length v)%nat ->
  nth j (cumsum_from acc v) 0 == acc + accu (firstn (S j) v).
Proof.
  revert acc j. induction v as [|a v IH]; intros acc j Hj.
  - simpl in Hj. lia.
  - destruct j as [|j].
    + simpl. lra.
    + cbn [cumsum_from nth]. rewrite IH by (simpl in Hj; lia).
      change (firstn (S (S j)) (a :: v)) with (a :: firstn (S j) v).
      cbn [accu]. lra.
Qed.

Lemma nth_cumsum (v : vec) (j : nat) :
  (j < length v)%nat -> nth j (cumsum v) 0 == accu (firstn (S j) v).
Proof.
  intro Hj. unfold cumsum. rewrite nth_cumsum_from by assumption. lra.
Qed.

(** ** Sorting *)

Lemma insert_descend_perm (a : Q) (v : vec) :
  Permutation (insert_descend a v) (a :: v).
Proof.
  induction v as [|b v IH]; simpl.
  - reflexivity.
  - destruct (Qle_bool b a).
    + reflexivity.
    + rewrite IH. apply perm_swap.
Qed.

Lemma sort_descend_perm (v : vec) : Permutation (sort_descend v) v.
Proof.
  induction v as [|a v IH]; simpl.
  - reflexivity.
  - rewrite insert_descend_perm. now constructor.
Qed.

Lemma insert_descend_sorted (a : Q) (v : vec) :
  descending v -> descending (insert_descend a v).
Proof.
  unfold descending.
  induction 1 as [|b v Hv IH Hb]; simpl.
  - constructor; constructor.
  - destruct (Qle_bool_spec b a) as [Hba|Hba].
    + constructor.
      * constructor; assumption.
      * constructor; [assumption|].
        eapply Forall_impl; [|exact Hb]. simpl. intros c Hc. lra.
    + constructor; [assumption|].
      eapply Permutation_Forall.
      * symmetry. apply insert_descend_perm.
      * constructor; [lra | assumption].
Qed.

Lemma sort_descend_sorted (v : vec) : descending (sort_descend v).
Proof.
  induction v as [|a v IH]; simpl.
  - constructor.
  - now apply insert_descend_sorted.
Qed.

Lemma descending_nth (v : vec) (i j : nat) :
  descending v -> (i <= j < length v)%nat -> nth j v 0 <= nth i v 0.
Proof.
  intro Hv. revert i j. induction Hv as [|a v Hv IH Ha]; intros i j Hij.
  - simpl in Hij. lia.
  - destruct j as [|j].
    + assert (i = 0%nat) by lia. subst. simpl. lra.
    + destruct i as [|i].
      * cbn [nth]. rewrite Forall_forall in Ha.
        apply Ha. apply nth_In. simpl in Hij. lia.
      * cbn [nth]. apply IH. simpl in Hij. lia.
Qed.

(** ** The pivot search *)

Lemma pivot_scan_spec (sol sum : vec) (tau : Q) (k : nat) (init : option nat)
    (rho : nat) :
  pivot_scan sol sum tau k init = Some rho ->
  (k = 0%nat /\ init = Some rho) \/
  ((rho < k)%nat /\
   (forall j, (rho < j < k)%nat -> nu_at sol sum tau j <= 0) /\
   (rho = 0%nat \/ 0 < nu_at sol sum tau rho)).
Proof.
  revert init. induction k as [|k IH]; intros init H.
  - left. split; [reflexivity | exact H].
  - right. cbn [pivot_scan] in H.
    fold (nu_at sol sum tau k) in H.
    destruct (Qlt_bool_spec 0 (nu_at sol sum tau k)) as [Hnu|Hnu].
    + injection H as <-. split; [lia|]. split; [intros j Hj; lia|].
      right. exact Hnu.
    + apply IH in H. destruct H as [[-> H]|(Hlt & Hfail & Hrho)].
      * injection H as <-. split; [lia|]. split; [intros j Hj; lia|].
        left. reflexivity.
      * split; [lia|]. split; [|exact Hrho].
        intros j Hj. destruct (Nat.eq_dec j k) as [->|Hne].
        -- exact Hnu.
        -- apply Hfail. lia.
Qed.


(** ** Soft thresholding below the pivot *)

Section Shrink.

Variables (s : vec) (tau : Q) (rho : nat).
Hypothesis s_sorted : descending s.
Hypothesis s_nonneg : Forall (fun a => 0 <= a) s.
Hypothesis infeasible : tau < accu s.
Hypothesis rho_range : (0 < rho < length s)%nat.
Hypothesis rho_passes : 0 < nu_at s (cumsum s) tau rho.
Hypothesis above_fail :
  forall j, (rho < j < length s)%nat -> nu_at s (cumsum s) tau j <= 0.

Let C : Q := nth rho (cumsum s) 0.
Let N1 : Q := of_size_t (rho + 1).
Let std_theta : Q := (C - tau) / N1.
Let theta : Q := (C - tau) / of_size_t rho.

Lemma N1_pos : 0 < N1.
Proof. apply of_size_t_pos. lia. Qed.

Lemma N1_succ : N1 == of_size_t rho + 1.
Proof. unfold N1. rewrite Nat.add_1_r. apply of_size_t_S. Qed.

Lemma C_prefix : C == accu (firstn (S rho) s).
Proof. apply nth_cumsum. lia. Qed.

Lemma std_theta_N1 : N1 * std_theta == C - tau.
Proof.
  unfold std_theta. apply Qmult_div_r.
  pose proof N1_pos. lra.
Qed.

Lemma below_pivot :
  0 <= C - tau /\ Forall (fun a => a <= std_theta) (skipn (S rho) s).
Proof.
  destruct (Nat.eq_dec (S rho) (length s)) as [Hlast|Hmore].
  - split.
    + pose proof C_prefix as HC.
      rewrite Hlast, firstn_all in HC. lra.
    + rewrite Hlast, skipn_all. constructor.
  - assert (Hj : (rho < S rho < length s)%nat) by lia.
    pose proof (above_fail _ Hj) as Hnu. unfold nu_at in Hnu.
    set (a := nth (S rho) s 0) in *.
    assert (Ha : 0 <= a).
    { rewrite Forall_forall in s_nonneg. apply s_nonneg.
      apply nth_In. lia. }
    assert (Hsum : nth (S rho) (cumsum s) 0 == C + a).
    { rewrite nth_cumsum by lia. rewrite accu_firstn_S, <- C_prefix.
      reflexivity. }
    assert (HN2 : of_size_t (S rho + 1) == N1 + 1).
    { rewrite (Nat.add_1_r (S rho)), of_size_t_S.
      unfold N1. rewrite Nat.add_1_r. reflexivity. }
    pose proof N1_pos as HN1.
    assert (Hq : (N1 + 1) * ((C + a - tau) / (N1 + 1)) == C + a - tau).
    { apply Qmult_div_r. lra. }
    rewrite Hsum, HN2 in Hnu.
    set (q := (C + a - tau) / (N1 + 1)) in *.
    assert (Haq : a <= q) by lra.
    assert (HaN : (N1 + 1) * a <= (N1 + 1) * q).
    { apply Qmult_le_l; lra. }
    assert (HaN1 : a * N1 <= C - tau) by lra.
    assert (HaN0 : 0 <= a * N1).
    { apply Qmult_le_0_compat; lra. }
    assert (Hast : a <= std_theta).
    { unfold std_theta. apply Qle_shift_div_l; assumption. }
    split; [lra|].
    apply Forall_nth. intros i d Hi.
    rewrite length_skipn in Hi.
    rewrite nth_skipn.
    rewrite (nth_indep s d 0) by lia.
    apply Qle_trans with a; [|exact Hast].
    apply descending_nth; [assumption | lia].
Qed.

Lemma std_theta_le_theta : std_theta <= theta.
Proof.
  destruct below_pivot as [HX _].
  pose proof N1_pos as HN1. pose proof N1_succ as HN.
  pose proof std_theta_N1 as Hst.
  assert (HN0 : 0 < of_size_t rho) by (apply of_size_t_pos; lia).
  assert (Hnn : 0 <= std_theta).
  { unfold std_theta. apply Qle_shift_div_l; [assumption | lra]. }
  unfold theta. apply Qle_shift_div_l; [assumption|].
  assert (Hm : std_theta * N1 == std_theta * of_size_t rho + std_theta).
  { rewrite HN. ring. }
  lra.
Qed.

Lemma shrink_inside :
  accu (map (fun a => std_max (a - theta) 0) s) <= tau.
Proof.
  destruct below_pivot as [HX Hbelow].
  pose proof std_theta_le_theta as Hth.
  pose proof std_theta_N1 as Hst.
  rewrite <- (firstn_skipn (S rho) s) at 1.
  rewrite map_app, accu_app.
  assert (Hlow : accu (map (fun a => std_max (a - theta) 0) (skipn (S rho) s)) == 0).
  { apply accu_zero_pointwise.
    eapply Forall_impl; [|exact Hbelow]. cbv beta. intros a Ha.
    unfold std_max. qcases; lra. }
  assert (Hhigh : accu (map (fun a => std_max (a - theta) 0) (firstn (S rho) s))
                  <= accu (map (fun a => a - std_theta) (firstn (S rho) s))).
  { apply accu_le_pointwise. apply Forall_nth. intros i d Hi.
    rewrite length_firstn in Hi.
    rewrite nth_firstn.
    destruct (Nat.ltb_spec i (S rho)) as [Hlt|Hge]; [|lia].
    rewrite (nth_indep s d 0) by lia.
    assert (Hge : nth rho s 0 <= nth i s 0).
    { apply descending_nth; [assumption | lia]. }
    unfold nu_at in rho_passes. fold C N1 std_theta in rho_passes.
    unfold std_max. qcases; lra. }
  rewrite accu_shift in Hhigh.
  rewrite length_firstn, Nat.min_l in Hhigh by lia.
  rewrite <- C_prefix in Hhigh.
  assert (HN : of_size_t (S rho) == N1).
  { unfold N1. rewrite Nat.add_1_r. reflexivity. }
  rewrite HN in Hhigh. lra.
Qed.

End Shrink.

(** ** ProjectionToL1 *)

Lemma abs_threshold (theta c : Q) :
  Qabs (threshold theta c) == std_max (Qabs c - theta) 0.
Proof.
  unfold threshold, std_max, std_min.
  destruct (Qle_bool_spec 0 c) as [Hc|Hc].
  - pose proof (Qabs_pos c Hc) as Hac.
    destruct (Qlt_bool_spec (c - theta) 0) as [H1|H1];
      destruct (Qlt_bool_spec (Qabs c - theta) 0) as [H2|H2]; try lra.
    + reflexivity.
    + rewrite Qabs_pos by lra. lra.
  - assert (Hc' : c <= 0) by lra.
    pose proof (Qabs_neg c Hc') as Hac.
    destruct (Qlt_bool_spec 0 (c + theta)) as [H1|H1];
      destruct (Qlt_bool_spec (Qabs c - theta) 0) as [H2|H2]; try lra.
    + reflexivity.
    + rewrite Qabs_neg by lra. lra.
Qed.

Lemma abs_nonneg (c : vec) : Forall (fun a => 0 <= a) (abs c).
Proof.
  unfold abs. apply Forall_forall. intros a Ha.
  apply in_map_iff in Ha. destruct Ha as (x & <- & _). apply Qabs_nonneg.
Qed.

Lemma accu_abs_threshold (theta : Q) (c : vec) :
  accu (abs (map (threshold theta) c))
  == accu (map (fun a => std_max (a - theta) 0) (sort_descend (abs c))).
Proof.
  rewrite (accu_perm _ _ (Permutation_map _ (sort_descend_perm (abs c)))).
  unfold abs. rewrite !map_map. apply accu_Forall2.
  induction c as [|a c IH]; simpl; constructor.
  - apply abs_threshold.
  - exact IH.
Qed.

(** The outcome of the projection on an infeasible vector, read off the
    result of the pivot search. *)
Lemma ProjectionToL1_infeasible (tau : Q) (c : vec) :
  tau < accu (abs c) ->
  let sol := sort_descend (abs c) in
  ProjectionToL1 tau c =
    match pivot_scan sol (cumsum sol) tau (length sol) None with
    | None => Err Uninitialised
    | Some rho =>
        if (rho =? 0)%nat then Err DivisionByZero
        else OK (map (threshold ((nth rho (cumsum sol) 0 - tau) / of_size_t rho)) c)
    end.
Proof.
  intros Hinf sol. unfold ProjectionToL1.
  destruct (Qle_bool_spec (accu (abs c)) tau) as [H|H]; [lra | reflexivity].
Qed.

Lemma thresholded_inside (tau : Q) (c : vec) (rho : nat) :
  tau < accu (abs c) ->
  let sol := sort_descend (abs c) in
  pivot_scan sol (cumsum sol) tau (length sol) None = Some rho ->
  (1 <= rho)%nat ->
  let theta := (nth rho (cumsum sol) 0 - tau) / of_size_t rho in
  (nth rho (cumsum sol) 0 - tau) / of_size_t (rho + 1) <= theta
  /\ accu (abs (map (threshold theta) c)) <= tau.
Proof.
  intros Hinf sol Hscan Hrho theta.
  apply pivot_scan_spec in Hscan.
  destruct Hscan as [[_ Hnone]|(Hlt & Hfail & Hpass)]; [discriminate|].
  destruct Hpass as [->|Hpass]; [lia|].
  assert (Hsorted : descending sol) by apply sort_descend_sorted.
  assert (Hnonneg : Forall (fun a => 0 <= a) sol).
  { eapply Permutation_Forall; [|apply abs_nonneg].
    symmetry. apply sort_descend_perm. }
  assert (Hsum : tau < accu sol).
  { unfold sol. rewrite (accu_perm _ _ (sort_descend_perm (abs c))). exact Hinf. }
  assert (Hrange : (0 < rho < length sol)%nat) by lia.
  split.
  - exact (std_theta_le_theta sol tau rho Hsorted Hnonneg Hsum Hrange Hfail).
  - rewrite accu_abs_threshold.
    exact (shrink_inside sol tau rho Hsorted Hnonneg Hsum Hrange Hpass Hfail).
Qed.

Lemma ProjectionToL1_feasible_output (tau : Q) (c out : vec) :
  ProjectionToL1 tau c = OK out -> accu (abs out) <= tau.
Proof.
  intro H.
  destruct (Qle_bool_spec (accu (abs c)) tau) as [Hfeas|Hinf].
  - unfold ProjectionToL1 in H.
    destruct (Qle_bool_spec (accu (abs c)) tau) as [_|Hc]; [|lra].
    injection H as <-. exact Hfeas.
  - rewrite (ProjectionToL1_infeasible tau c Hinf) in H. cbv zeta in H.
    destruct (pivot_scan _ _ _ _ _) as [rho|] eqn:Hscan; [|discriminate].
    destruct (Nat.eqb_spec rho 0) as [|Hne]; [discriminate|].
    injection H as <-.
    apply (thresholded_inside tau c rho Hinf Hscan). lia.
Qed.


Lemma ProjectionToL1_length (tau : Q) (c out : vec) :
  ProjectionToL1 tau c = OK out -> length out = length c.
Proof.
  unfold ProjectionToL1. intro H.
  destruct (Qle_bool _ _); [now injection H as <-|].
  destruct (pivot_scan _ _ _ _ _) as [rho|]; [|discriminate].
  destruct (rho =? 0)%nat; [discriminate|].
  injection H as <-. apply length_map.
Qed.

(** ** Sizes *)

Lemma zip_with_length (op : Q -> Q -> Q) (a b : vec) :
  length (zip_with op a b) = Nat.min (length a) (length b).
Proof.
  revert b. induction a as [|x a IH]; intros [|y b]; simpl; auto.
Qed.

Lemma ewise_length (op : Q -> Q -> Q) (a b c : vec) :
  ewise op a b = OK c -> length c = length a /\ length c = length b.
Proof.
  unfold ewise. destruct (Nat.eqb_spec (length a) (length b)) as [E|E];
    [|discriminate].
  intro H. injection H as <-. rewrite zip_with_length. lia.
Qed.

Lemma remove_nth_length {A : Type} (i : nat) (l : list A) :
  (i < length l)%nat -> S (length (remove_nth i l)) = length l.
Proof.
  revert i. induction l as [|a l IH]; intros i Hi; simpl in Hi; [lia|].
  destruct i as [|i]; simpl.
  - reflexivity.
  - rewrite IH by lia. reflexivity.
Qed.

Lemma shed_col_n_cols (m m' : mat) (ind : nat) :
  shed_col m ind = OK m' -> S (n_cols m') = n_cols m /\ n_rows m' = n_rows m.
Proof.
  unfold shed_col. destruct (Nat.ltb_spec ind (n_cols m)) as [Hlt|Hge];
    [|discriminate].
  intro H. injection H as <-. unfold n_cols. cbn [cols n_rows].
  split; [now apply remove_nth_length | reflexivity].
Qed.

Lemma mat_vec_conforms (m : mat) (v x : vec) :
  mat_vec m v = OK x -> n_cols m = length v.
Proof.
  unfold mat_vec. destruct (Nat.eqb_spec (n_cols m) (length v)); [auto|discriminate].
Qed.

(** ** ProjectedGradientEnhancement *)

Lemma pge_body_frame (f : FunctionType) (tau stepSize tolerance : Q)
    (x : vec) (value : Q) (s s' : pge_state) (r : result (option (vec * Q))) :
  pge_body f tau stepSize tolerance x value s = (s', r) ->
  steps s' = S (steps s)
  /\ currentAtoms (this s') = currentAtoms (this s)
  /\ length (currentCoeffs (this s')) = length (currentCoeffs (this s)).
Proof.
  unfold pge_body, bind, modify, gets, lift, ret. cbn [this steps].
  destruct (trans_mul _ _) as [g|e].
  2:{ intro H. injection H as <- <-. cbn. auto. }
  destruct (ewise _ _ _) as [coeffs|e] eqn:Hsub.
  2:{ intro H. injection H as <- <-. cbn. auto. }
  apply ewise_length in Hsub. destruct Hsub as [Hlen _].
  destruct (ProjectionToL1 tau coeffs) as [coeffs'|e] eqn:Hproj.
  2:{ intro H. injection H as <- <-. cbn. auto. }
  apply ProjectionToL1_length in Hproj.
  destruct (RecoverVector _) as [x'|e].
  2:{ intro H. injection H as <- <-. cbn. split; [|split]; congruence. }
  destruct (Qlt_bool _ _); intro H; injection H as <- <-; cbn;
    (split; [|split]; congruence).
Qed.

Lemma pge_loop_frame (f : FunctionType) (tau stepSize : Q) (maxIteration : nat)
    (tolerance : Q) (fuel iter : nat) (x : vec) (value : Q) (s : pge_state) :
  let r := pge_loop fuel f tau stepSize maxIteration tolerance iter x value s in
  (steps (fst r) <= steps s + (maxIteration - iter))%nat
  /\ currentAtoms (this (fst r)) = currentAtoms (this s)
  /\ length (currentCoeffs (this (fst r))) = length (currentCoeffs (this s))
  /\ ((maxIteration - iter < fuel)%nat -> snd r <> Stuck).
Proof.
  revert iter x value s.
  induction fuel as [|fuel IH]; intros iter x value s; cbn [pge_loop].
  - cbn. split; [lia|]. split; [reflexivity|]. split; [reflexivity|].
    intros Hlt; lia.
  - destruct (Nat.ltb_spec iter maxIteration) as [Hlt|Hge].
    + destruct (pge_body f tau stepSize tolerance x value s)
        as [s' [[[x' value']|]|e]] eqn:Hbody;
        apply pge_body_frame in Hbody; destruct Hbody as (Hs & Ha & Hc).
      * specialize (IH (S iter) x' value' s'). cbv zeta in IH.
        destruct IH as (IH1 & IH2 & IH3 & IH4).
        split; [lia|]. split; [congruence|]. split; [congruence|].
        intro Hfuel. apply IH4. lia.
      * cbn. split; [lia|]. split; [congruence|]. split; [congruence|].
        intros _; discriminate.
      * cbn. split; [lia|]. split; [congruence|]. split; [congruence|].
        intros _; discriminate.
    + cbn. split; [lia|]. split; [reflexivity|]. split; [reflexivity|].
      intros _; discriminate.
Qed.

(** ** PruneSupport *)

Lemma min_from_bound (v : vec) (best : Q) (besti i : nat) :
  (besti < i)%nat -> (min_from best besti i v < i + length v)%nat.
Proof.
  revert best besti i. induction v as [|a v IH]; intros best besti i Hi; simpl.
  - lia.
  - destruct (Qlt_bool a best).
    + specialize (IH a i (S i)). lia.
    + specialize (IH best besti (S i)). lia.
Qed.

Lemma min_index_bound (v : vec) (ind : nat) :
  min_index v = OK ind -> (ind < length v)%nat.
Proof.
  destruct v as [|a v]; simpl; [discriminate|].
  intro H. injection H as <-.
  pose proof (min_from_bound v a 0%nat 1%nat). lia.
Qed.

Section PruneFacts.

Variable solve : mat -> vec -> result vec.
Variables (F : Q) (f : FuncSq).

Ltac body_unfold :=
  unfold prune_body, bind, modify, gets, lift, ret, emit; cbn [self atomSqTerm trace].

Lemma prune_body_rejects (s : prune_state) ind newAtoms newCoeffs Fnew :
  trial_yields solve f (self s) (atomSqTerm s) ind newAtoms newCoeffs Fnew ->
  F < Fnew ->
  prune_body solve F f s =
    (mkPrune (self s) (atomSqTerm s)
       ((trace s ++ [GradientAt (currentAtoms (self s))]) ++ [Refit newAtoms]),
     OK false).
Proof.
  intros (x & tg & cg & gap & an & xnew & H1 & H2 & H3 & H4 & H5 & H6 & H7 & H8
          & H9 & ->) HF.
  body_unfold.
  rewrite H1; cbn. rewrite H2; cbn. rewrite H3; cbn. rewrite H4; cbn.
  rewrite H5; cbn. rewrite H6; cbn. rewrite H7; cbn. rewrite H8; cbn.
  rewrite H9; cbn.
  destruct (Qlt_bool_spec F (Evaluate f xnew)) as [_|Hle]; [reflexivity | lra].
Qed.

Lemma prune_body_accepts (s : prune_state) ind newAtoms newCoeffs Fnew :
  trial_yields solve f (self s) (atomSqTerm s) ind newAtoms newCoeffs Fnew ->
  Fnew <= F ->
  prune_body solve F f s =
    (mkPrune (mkAtoms newCoeffs newAtoms) (remove_nth ind (atomSqTerm s))
       ((trace s ++ [GradientAt (currentAtoms (self s))]) ++ [Refit newAtoms]),
     OK true).
Proof.
  intros (x & tg & cg & gap & an & xnew & H1 & H2 & H3 & H4 & H5 & H6 & H7 & H8
          & H9 & ->) HF.
  assert (Hind : (ind < length (atomSqTerm s))%nat).
  { apply min_index_bound in H5. apply ewise_length in H4. lia. }
  body_unfold.
  rewrite H1; cbn. rewrite H2; cbn. rewrite H3; cbn. rewrite H4; cbn.
  rewrite H5; cbn. rewrite H6; cbn. rewrite H7; cbn. rewrite H8; cbn.
  rewrite H9; cbn.
  destruct (Qlt_bool_spec F (Evaluate f xnew)) as [Hlt|_]; [lra|].
  unfold shed_row.
  destruct (Nat.ltb_spec ind (length (atomSqTerm s))) as [_|Hge]; [|lia].
  reflexivity.
Qed.

(** Every pass through the body either leaves the object and the scores
    alone, or commits a trial that was within the threshold. *)
Lemma prune_body_cases (s s' : prune_state) (r : result bool) :
  prune_body solve F f s = (s', r) ->
  (exists evs, trace s' = trace s ++ evs)
  /\ ((self s' = self s /\ atomSqTerm s' = atomSqTerm s /\ r <> OK true)
      \/ (r <> OK false
          /\ within_threshold F f (self s')
          /\ coeffs_match (self s')
          /\ S (n_cols (currentAtoms (self s'))) = n_cols (currentAtoms (self s)))).
Proof.
  body_unfold.
  destruct (RecoverVector (self s)) as [x|e]; cbn.
  2:{ intro H; injection H as <- <-. split; [exists []; now rewrite app_nil_r|].
      left. repeat split; discriminate. }
  destruct (trans_mul _ _) as [tg|e]; cbn.
  2:{ intro H; injection H as <- <-. split; [eexists; reflexivity|].
      left. repeat split; discriminate. }
  destruct (ewise Qmult _ _) as [cg|e]; cbn.
  2:{ intro H; injection H as <- <-. split; [eexists; reflexivity|].
      left. repeat split; discriminate. }
  destruct (ewise Qminus _ _) as [gap|e]; cbn.
  2:{ intro H; injection H as <- <-. split; [eexists; reflexivity|].
      left. repeat split; discriminate. }
  destruct (min_index gap) as [ind|e]; cbn.
  2:{ intro H; injection H as <- <-. split; [eexists; reflexivity|].
      left. repeat split; discriminate. }
  destruct (shed_col _ ind) as [newAtoms|e] eqn:Hshed; cbn.
  2:{ intro H; injection H as <- <-. split; [eexists; reflexivity|].
      left. repeat split; discriminate. }
  destruct (mat_mul _ newAtoms) as [an|e]; cbn.
  2:{ intro H; injection H as <- <-. split; [eexists; reflexivity|].
      left. repeat split; discriminate. }
  destruct (solve an _) as [newCoeffs|e]; cbn.
  2:{ intro H; injection H as <- <-.
      split; [rewrite <- app_assoc; eexists; reflexivity|].
      left. repeat split; discriminate. }
  destruct (mat_vec newAtoms newCoeffs) as [xnew|e] eqn:Hx; cbn.
  2:{ intro H; injection H as <- <-.
      split; [rewrite <- app_assoc; eexists; reflexivity|].
      left. repeat split; discriminate. }
  destruct (Qlt_bool_spec F (Evaluate f xnew)) as [Hlt|Hle]; cbn.
  { intro H; injection H as <- <-.
    split; [rewrite <- app_assoc; eexists; reflexivity|].
    left. repeat split; discriminate. }
  assert (Hcommit : within_threshold F f (mkAtoms newCoeffs newAtoms)
                    /\ coeffs_match (mkAtoms newCoeffs newAtoms)
                    /\ S (n_cols newAtoms) = n_cols (currentAtoms (self s))).
  { split; [|split].
    - exists xnew. split; [exact Hx | exact Hle].
    - unfold coeffs_match. cbn. symmetry. eapply mat_vec_conforms; eassumption.
    - apply shed_col_n_cols in Hshed. tauto. }
  destruct (shed_row _ ind) as [sq'|e]; cbn;
    intro H; injection H as <- <-;
    (split; [rewrite <- app_assoc; eexists; reflexivity|]);
    right; cbn; (split; [discriminate | exact Hcommit]).
Qed.

Lemma trial_yields_refits (st : Atoms) (sq : vec) ind newAtoms newCoeffs Fnew :
  trial_yields solve f st sq ind newAtoms newCoeffs Fnew ->
  exists an, trial_refits f st sq ind newAtoms an.
Proof.
  intros (x & tg & cg & gap & an & xnew & H1 & H2 & H3 & H4 & H5 & H6 & H7 & _).
  exists an, x, tg, cg, gap. tauto.
Qed.

Lemma prune_body_refit (s s' : prune_state) (r : result bool) ind newAtoms an :
  trial_refits f (self s) (atomSqTerm s) ind newAtoms an ->
  prune_body solve F f s = (s', r) ->
  In (Refit newAtoms) (trace s').
Proof.
  intros (x & tg & cg & gap & H1 & H2 & H3 & H4 & H5 & H6 & H7).
  body_unfold.
  rewrite H1; cbn. rewrite H2; cbn. rewrite H3; cbn. rewrite H4; cbn.
  rewrite H5; cbn. rewrite H6; cbn. rewrite H7; cbn.
  assert (Hin : In (Refit newAtoms)
                  ((trace s ++ [GradientAt (currentAtoms (self s))])
                   ++ [Refit newAtoms])).
  { apply in_or_app. right. left. reflexivity. }
  destruct (solve an _) as [newCoeffs|e]; cbn.
  2:{ intro H; injection H as <- <-. exact Hin. }
  destruct (mat_vec newAtoms newCoeffs) as [xnew|e]; cbn.
  2:{ intro H; injection H as <- <-. exact Hin. }
  destruct (Qlt_bool F (Evaluate f xnew)); cbn.
  { intro H; injection H as <- <-. exact Hin. }
  destruct (shed_row _ ind) as [sq'|e]; cbn;
    intro H; injection H as <- <-; exact Hin.
Qed.

Lemma prune_body_no_atoms (s s' : prune_state) (r : result bool) :
  n_cols (currentAtoms (self s)) = 0%nat ->
  prune_body solve F f s = (s', r) ->
  self s' = self s
  /\ (exists e, r = Err e)
  /\ (forall x, RecoverVector (self s) = OK x ->
      In (GradientAt (currentAtoms (self s))) (trace s')).
Proof.
  intro Hzero. body_unfold.
  destruct (RecoverVector (self s)) as [x|e]; cbn.
  2:{ intro H; injection H as <- <-.
      split; [reflexivity|]. split; [eauto | discriminate]. }
  assert (Hin : In (GradientAt (currentAtoms (self s)))
                  (trace s ++ [GradientAt (currentAtoms (self s))])).
  { apply in_or_app. right. left. reflexivity. }
  destruct (trans_mul _ _) as [tg|e]; cbn.
  2:{ intro H; injection H as <- <-. cbn. eauto. }
  destruct (ewise Qmult _ _) as [cg|e]; cbn.
  2:{ intro H; injection H as <- <-. cbn. eauto. }
  destruct (ewise Qminus _ _) as [gap|e]; cbn.
  2:{ intro H; injection H as <- <-. cbn. eauto. }
  destruct (min_index gap) as [ind|e]; cbn.
  2:{ intro H; injection H as <- <-. cbn. eauto. }
  unfold shed_col. rewrite Hzero. cbn.
  intro H; injection H as <- <-. cbn. eauto.
Qed.

Lemma prune_loop_facts (fuel : nat) (s : prune_state) :
  let r := prune_loop solve fuel F f s in
  (exists evs, trace (fst r) = trace s ++ evs)
  /\ (coeffs_match (self s) -> coeffs_match (self (fst r)))
  /\ (within_threshold F f (self s) -> within_threshold F f (self (fst r)))
  /\ (n_cols (currentAtoms (self (fst r))) <= n_cols (currentAtoms (self s)))%nat
  /\ ((n_cols (currentAtoms (self s)) < fuel)%nat -> snd r <> Stuck).
Proof.
  revert s. induction fuel as [|fuel IH]; intro s; cbn [prune_loop].
  - cbn. split; [exists []; now rewrite app_nil_r|].
    split; [auto|]. split; [auto|]. split; [lia|]. intro H; lia.
  - destruct (prune_body solve F f s) as [s' r] eqn:Hbody.
    apply prune_body_cases in Hbody.
    destruct Hbody as [[evs Hevs] Hcases].
    destruct r as [[|]|e].
    + destruct Hcases as [(_ & _ & Hno)|(_ & Hth & Hinv & Hn)]; [congruence|].
      specialize (IH s'). cbv zeta in IH.
      destruct IH as ([evs' IH1] & IH2 & IH3 & IH4 & IH5).
      split; [exists (evs ++ evs'); rewrite IH1, Hevs; now rewrite app_assoc|].
      split; [auto|]. split; [auto|]. split; [lia|].
      intro Hfuel. apply IH5. lia.
    + destruct Hcases as [(Hself & _ & _)|(Hno & _)]; [|congruence].
      cbn. rewrite Hself.
      split; [exists evs; exact Hevs|].
      split; [auto|]. split; [auto|]. split; [lia|]. intros _; discriminate.
    + cbn. split; [exists evs; exact Hevs|].
      destruct Hcases as [(Hself & _ & _)|(_ & Hth & Hinv & Hn)].
      * rewrite Hself. split; [auto|]. split; [auto|]. split; [lia|].
        intros _; discriminate.
      * split; [auto|]. split; [auto|]. split; [lia|]. intros _; discriminate.
Qed.

End PruneFacts.

(** * The claims *)

(** The worked example in exact arithmetic: the absolute values sum to
    2.1 > 1, the sorted absolute values are [0.9, 0.7, 0.5] with running
    sums [0.9, 1.6, 2.1], the pivot search stops at once with [rho = 2],
    the threshold is [(2.1 - 1) / 2 = 0.55], not the value with divisor
    [rho + 1], and the result is [0.15, 0, -0.35]. *)
Lemma exact_projection_example :
  let sol := sort_descend (abs example_coeffs) in
  accu (abs example_coeffs) == 21 # 10
  /\ Qle_bool (accu (abs example_coeffs)) 1 = false
  /\ vec_eq sol [9 # 10; 7 # 10; 5 # 10]
  /\ vec_eq (cumsum sol) [9 # 10; 16 # 10; 21 # 10]
  /\ 0 < nu_at sol (cumsum sol) 1 2
  /\ pivot_scan sol (cumsum sol) 1 (length sol) None = Some 2%nat
  /\ (nth 2 (cumsum sol) 0 - 1) / of_size_t 2 == 55 # 100
  /\ ~ (nth 2 (cumsum sol) 0 - 1) / of_size_t 2
       == (nth 2 (cumsum sol) 0 - 1) / of_size_t (2 + 1)
  /\ exists out,
       ProjectionToL1 1 example_coeffs = OK out
       /\ vec_eq out [15 # 100; 0; - 35 # 100]
       /\ nth 1 out 1 = 0.
Proof.
  cbv zeta.
  split; [vm_compute; reflexivity|].
  split; [vm_compute; reflexivity|].
  split; [vm_compute; repeat constructor|].
  split; [vm_compute; repeat constructor|].
  split; [vm_compute; reflexivity|].
  split; [vm_compute; reflexivity|].
  split; [vm_compute; reflexivity|].
  split; [vm_compute; discriminate|].
  eexists. split; [vm_compute; reflexivity|].
  split; [vm_compute; repeat constructor | reflexivity].
Qed.

(** In exact arithmetic the projection is idempotent wherever it is
    defined: its output is feasible, hence returned unchanged. *)
Lemma exact_projection_idempotent (tau : Q) (c out : vec) :
  ProjectionToL1 tau c = OK out -> ProjectionToL1 tau out = OK out.
Proof.
  intro H. apply ProjectionToL1_feasible_output in H.
  unfold ProjectionToL1.
  destruct (Qle_bool_spec (accu (abs out)) tau) as [_|Hinf]; [reflexivity | lra].
Qed.

(** In exact arithmetic, on an infeasible vector whose pivot search stops
    at [rho >= 1], the threshold [(cum[rho] - tau) / rho] is at least the
    standard one [(cum[rho] - tau) / (rho + 1)] and the thresholded vector
    lies in the ball of radius [tau]. *)
Lemma exact_projection_inside_ball (tau : Q) (c : vec) (rho : nat) :
  tau < accu (abs c) ->
  pivot_scan (sort_descend (abs c)) (cumsum (sort_descend (abs c))) tau
    (length (sort_descend (abs c))) None = Some rho ->
  (1 <= rho)%nat ->
  let theta := (nth rho (cumsum (sort_descend (abs c))) 0 - tau) / of_size_t rho in
  ProjectionToL1 tau c = OK (map (threshold theta) c)
  /\ (nth rho (cumsum (sort_descend (abs c))) 0 - tau) / of_size_t (rho + 1) <= theta
  /\ accu (abs (map (threshold theta) c)) <= tau.
Proof.
  intros Hinf Hscan Hrho theta.
  split.
  - rewrite (ProjectionToL1_infeasible tau c Hinf). cbv zeta.
    rewrite Hscan.
    destruct (Nat.eqb_spec rho 0) as [->|_]; [lia | reflexivity].
  - exact (thresholded_inside tau c rho Hinf Hscan Hrho).
Qed.

Lemma ProjectionToL1_singleton (tau c : Q) :
  0 < tau -> tau < Qabs c -> ProjectionToL1 tau [c] = Err DivisionByZero.
Proof.
  intros Htau Hc. unfold ProjectionToL1. cbn [abs map accu].
  destruct (Qle_bool_spec (Qabs c + 0) tau) as [H|_]; [lra|].
  cbn [sort_descend insert_descend cumsum cumsum_from length pivot_scan nth].
  change (of_size_t (0 + 1)) with 1.
  destruct (Qlt_bool_spec 0 (Qabs c - (0 + Qabs c - tau) / 1)) as [_|H].
  - reflexivity.
  - assert (Hq : (0 + Qabs c - tau) / 1 == 0 + Qabs c - tau) by (field).
    lra.
Qed.

Lemma pge_single_atom_throws (f : FunctionType) (tau stepSize tolerance : Q)
    (maxIteration : nat) (atom : vec) (c0 : Q) :
  let st := mkAtoms [c0] (colvec atom) in
  let x := lincomb (zeros (length atom)) [atom] [c0] in
  length (Gradient f x) = length atom ->
  0 < tau ->
  tau < Qabs (c0 - stepSize * dot atom (Gradient f x)) ->
  (2 <= maxIteration)%nat ->
  ProjectedGradientEnhancement f tau stepSize maxIteration tolerance st
  = (mkPge (mkAtoms [c0 - stepSize * dot atom (Gradient f x)] (colvec atom)) 1,
     Throw DivisionByZero).
Proof.
  intros st x Hg Htau Hc Hmax. subst st.
  unfold ProjectedGradientEnhancement, RecoverVector, mat_vec.
  cbn [currentAtoms currentCoeffs colvec n_cols cols length Nat.eqb n_rows].
  fold x. cbn [pge_loop].
  destruct (Nat.ltb_spec 1 maxIteration) as [_|H]; [|lia].
  unfold pge_body, bind, modify, gets, lift, ret, trans_mul, ewise.
  cbn [this steps currentAtoms currentCoeffs colvec n_rows cols map scale length].
  rewrite Hg, Nat.eqb_refl. cbn [Nat.eqb zip_with scale map length].
  rewrite (ProjectionToL1_singleton tau _ Htau Hc).
  reflexivity.
Qed.

(** C2: the threshold computation divides by [rho] without a guard. For a
    one-element coefficient vector whose absolute value exceeds [tau > 0]
    the projection reaches the division with [rho = 0]; so does every
    infeasible vector whose pivot search stops at [rho = 0]; and the
    division by zero is reached through the public
    [ProjectedGradientEnhancement], here from a one-atom set whose
    coefficient is the given [c]. *)
Theorem C2_division_by_zero_reachable (tau c : Q) :
  0 < tau -> tau < Qabs c ->
  ProjectionToL1 tau [c] = Err DivisionByZero
  /\ (forall coeffs : vec,
        tau < accu (abs coeffs) ->
        pivot_scan (sort_descend (abs coeffs)) (cumsum (sort_descend (abs coeffs)))
          tau (length (sort_descend (abs coeffs))) None = Some 0%nat ->
        ProjectionToL1 tau coeffs = Err DivisionByZero)
  /\ (exists (f : FunctionType) (stepSize tolerance : Q) (maxIteration : nat)
             (st : Atoms),
        currentCoeffs st = [c] /\ coeffs_match st
        /\ snd (ProjectedGradientEnhancement f tau stepSize maxIteration tolerance st)
           = Throw DivisionByZero).
Proof.
  intros Htau Hc. split; [|split].
  - exact (ProjectionToL1_singleton tau c Htau Hc).
  - intros coeffs Hinf Hscan.
    rewrite (ProjectionToL1_infeasible tau coeffs Hinf). cbv zeta.
    rewrite Hscan. reflexivity.
  - exists (mkFunction (fun _ => 0) (fun x => x)), 0, 0, 2%nat,
           (mkAtoms [c] (colvec [0])).
    split; [reflexivity|]. split; [reflexivity|].
    rewrite pge_single_atom_throws.
    + reflexivity.
    + reflexivity.
    + exact Htau.
    + cbn [Gradient].
      assert (Hq : c - 0 * dot [0] (lincomb (zeros (length [0])) [[0]] [c]) == c)
        by ring.
      rewrite Hq. exact Hc.
    + lia.
Qed.

Lemma C2_witness :
  ProjectionToL1 1 [2] = Err DivisionByZero
  /\ exists (f : FunctionType) (stepSize tolerance : Q) (maxIteration : nat)
            (st : Atoms),
       currentCoeffs st = [2] /\ coeffs_match st
       /\ snd (ProjectedGradientEnhancement f 1 stepSize maxIteration tolerance st)
          = Throw DivisionByZero.
Proof.
  assert (H1 : 0 < 1) by reflexivity.
  assert (H2 : 1 < Qabs 2) by reflexivity.
  split.
  - exact (proj1 (C2_division_by_zero_reachable 1 2 H1 H2)).
  - exact (proj2 (proj2 (C2_division_by_zero_reachable 1 2 H1 H2))).
Defined.

(** C10: for every [maxIteration] the loop body of
    [ProjectedGradientEnhancement] is entered at most [maxIteration - 1]
    times and the call ends (it never runs out of the iterations the
    embedding allots); with [maxIteration = 1] at most one gradient and
    projection step is performed (in fact none). *)
Theorem C10_iteration_bound (f : FunctionType) (tau stepSize tolerance : Q)
    (maxIteration : nat) (st : Atoms) :
  let r := ProjectedGradientEnhancement f tau stepSize maxIteration tolerance st in
  (steps (fst r) <= maxIteration - 1)%nat
  /\ (snd r = Return \/ exists e, snd r = Throw e)
  /\ (steps (fst (ProjectedGradientEnhancement f tau stepSize 1 tolerance st))
      <= 1)%nat.
Proof.
  assert (Hgen : forall m,
    let r := ProjectedGradientEnhancement f tau stepSize m tolerance st in
    (steps (fst r) <= m - 1)%nat /\ snd r <> Stuck).
  { intro m. unfold ProjectedGradientEnhancement.
    destruct (RecoverVector st) as [x|e].
    - pose proof (pge_loop_frame f tau stepSize m tolerance (S m) 1 x
                    (Evaluate f x) (mkPge st 0)) as H.
      cbv zeta in H. destruct H as (H1 & _ & _ & H4).
      cbn [steps] in H1. cbv zeta. split; [lia|]. apply H4. lia.
    - cbn. split; [lia | discriminate]. }
  cbv zeta. split; [apply Hgen|]. split.
  - destruct (Hgen maxIteration) as [_ Hns]. cbv zeta in Hns.
    destruct (snd (ProjectedGradientEnhancement f tau stepSize maxIteration
                     tolerance st)) as [|e|].
    + left; reflexivity.
    + right; exists e; reflexivity.
    + congruence.
  - destruct (Hgen 1%nat) as [H _]. cbv zeta in H. lia.
Qed.

Lemma PruneSupport_facts (solve : mat -> vec -> result vec) (F : Q) (f : FuncSq)
    (st : Atoms) :
  let r := PruneSupport solve F f st in
  (coeffs_match st -> coeffs_match (self (fst r)))
  /\ (n_cols (currentAtoms (self (fst r))) <= n_cols (currentAtoms st))%nat
  /\ snd r <> Stuck.
Proof.
  unfold PruneSupport. destruct (init_atomSqTerm f st) as [sq|e].
  - pose proof (prune_loop_facts solve F f (S (n_cols (currentAtoms st)))
                  (mkPrune st sq [])) as H.
    cbv zeta in H. cbn [self] in H.
    destruct H as (_ & H2 & _ & H4 & H5).
    cbv zeta. split; [exact H2|]. split; [exact H4|]. apply H5. lia.
  - cbn. split; [auto|]. split; [lia | discriminate].
Qed.

(** The refinement over any projection that returns vectors of the length
    it is given. *)
Section RefinementOver.

Variable proj : Q -> vec -> result vec.
Hypothesis proj_length :
  forall tau c out, proj tau c = OK out -> length out = length c.

Lemma pge_body_with_frame (f : FunctionType) (tau stepSize tolerance : Q)
    (x : vec) (value : Q) (s s' : pge_state) (r : result (option (vec * Q))) :
  pge_body_with proj f tau stepSize tolerance x value s = (s', r) ->
  currentAtoms (this s') = currentAtoms (this s)
  /\ length (currentCoeffs (this s')) = length (currentCoeffs (this s)).
Proof.
  unfold pge_body_with, bind, modify, gets, lift, ret. cbn [this steps].
  destruct (trans_mul _ _) as [g|e].
  2:{ intro H. injection H as <- <-. cbn. auto. }
  destruct (ewise _ _ _) as [coeffs|e] eqn:Hsub.
  2:{ intro H. injection H as <- <-. cbn. auto. }
  apply ewise_length in Hsub. destruct Hsub as [Hlen _].
  destruct (proj tau coeffs) as [coeffs'|e] eqn:Hproj.
  2:{ intro H. injection H as <- <-. cbn. auto. }
  apply proj_length in Hproj.
  destruct (RecoverVector _) as [x'|e].
  2:{ intro H. injection H as <- <-. cbn. split; congruence. }
  destruct (Qlt_bool _ _); intro H; injection H as <- <-; cbn;
    (split; congruence).
Qed.

Lemma pge_loop_with_frame (f : FunctionType) (tau stepSize : Q)
    (maxIteration : nat) (tolerance : Q) (fuel iter : nat) (x : vec)
    (value : Q) (s : pge_state) :
  let r := pge_loop_with proj fuel f tau stepSize maxIteration tolerance
             iter x value s in
  currentAtoms (this (fst r)) = currentAtoms (this s)
  /\ length (currentCoeffs (this (fst r))) = length (currentCoeffs (this s)).
Proof.
  revert iter x value s.
  induction fuel as [|fuel IH]; intros iter x value s; cbn [pge_loop_with].
  - cbn. auto.
  - destruct (iter <? maxIteration)%nat; [|cbn; auto].
    destruct (pge_body_with proj f tau stepSize tolerance x value s)
      as [s' [[[x' value']|]|e]] eqn:Hbody;
      apply pge_body_with_frame in Hbody; destruct Hbody as (Ha & Hc).
    + specialize (IH (S iter) x' value' s'). cbv zeta in IH.
      destruct IH as (IH1 & IH2). split; congruence.
    + cbn. auto.
    + cbn. auto.
Qed.

Lemma refinement_with_frame (f : FunctionType) (tau stepSize tolerance : Q)
    (maxIteration : nat) (st : Atoms) :
  let st' := this (fst (ProjectedGradientEnhancement_with proj f tau stepSize
                          maxIteration tolerance st)) in
  currentAtoms st' = currentAtoms st
  /\ length (currentCoeffs st') = length (currentCoeffs st).
Proof.
  cbv zeta. unfold ProjectedGradientEnhancement_with.
  destruct (RecoverVector st) as [x|e].
  - apply (pge_loop_with_frame f tau stepSize maxIteration tolerance
             (S maxIteration) 1 x (Evaluate f x) (mkPge st 0)).
  - cbn. auto.
Qed.

End RefinementOver.

Lemma ProjectionToL1_inf_length (tau : Q) (c out : vec) :
  ProjectionToL1_inf tau c = OK out -> length out = length c.
Proof.
  unfold ProjectionToL1_inf.
  destruct (ProjectionToL1 tau c) as [o|e] eqn:H.
  - intro E. injection E as <-. exact (ProjectionToL1_length tau c o H).
  - destruct e; try discriminate.
    intro E. injection E as <-. apply length_map.
Qed.

Lemma pge_loop_with_guarded (f : FunctionType) (tau stepSize : Q)
    (maxIteration : nat) (tolerance : Q) (fuel iter : nat) (x : vec)
    (value : Q) (s : pge_state) :
  pge_loop_with ProjectionToL1 fuel f tau stepSize maxIteration tolerance
    iter x value s
  = pge_loop fuel f tau stepSize maxIteration tolerance iter x value s.
Proof.
  revert iter x value s.
  induction fuel as [|fuel IH]; intros iter x value s; [reflexivity|].
  cbn [pge_loop_with pge_loop].
  change (pge_body_with ProjectionToL1) with pge_body.
  destruct (iter <? maxIteration)%nat; [|reflexivity].
  destruct (pge_body f tau stepSize tolerance x value s)
    as [s' [[[x' value']|]|e]]; [apply IH|reflexivity|reflexivity].
Qed.

Lemma refinement_with_guarded (f : FunctionType) (tau stepSize : Q)
    (maxIteration : nat) (tolerance : Q) (st : Atoms) :
  ProjectedGradientEnhancement_with ProjectionToL1 f tau stepSize maxIteration
    tolerance st
  = ProjectedGradientEnhancement f tau stepSize maxIteration tolerance st.
Proof.
  unfold ProjectedGradientEnhancement_with, ProjectedGradientEnhancement.
  destruct (RecoverVector st); [apply pge_loop_with_guarded|reflexivity].
Qed.

(** C8, as worded, has both counts grow by one at every [AddAtom]. The
    state reached by adding an atom without entries to the empty set holds
    one atom and one coefficient; the next [AddAtom] finds storage without
    elements, replaces it, and both counts stay at one. *)
Lemma C8_counterexample :
  let st := mkAtoms [1] (colvec []) in
  AddAtom empty_Atoms (colvec []) 1 = OK st
  /\ coeffs_match st
  /\ exists st',
       AddAtom st (colvec [5; 7]) 3 = OK st'
       /\ coeffs_match st'
       /\ n_cols (currentAtoms st') = n_cols (currentAtoms st)
       /\ length (currentCoeffs st') = length (currentCoeffs st)
       /\ n_cols (currentAtoms st') <> S (n_cols (currentAtoms st)).
Proof.
  cbv zeta. split; [reflexivity|]. split; [reflexivity|].
  eexists. split; [reflexivity|]. split; [reflexivity|].
  split; [reflexivity|]. split; [reflexivity|]. cbn. discriminate.
Qed.

(** C8, amended: one coefficient per atom is an invariant of the class.
    From a state in which the two counts agree: [AddAtom] of a column
    vector succeeds whenever the storage is empty or the vector has the
    rows of the stored atoms, and the counts agree afterwards; on stored
    atoms both grow by one, on empty storage (no atom, as in the empty
    set, or atoms without rows) the set is replaced and both become one;
    a failing [AddAtom] is the size exception on stored atoms of another
    dimension. The counts agree after [PruneSupport] however it ends, and
    after [ProjectedGradientEnhancement] however it ends, which leaves
    the atoms alone and the number of coefficients unchanged: with the
    division by zero as an exception, with the division by zero carried
    through as the compiled code carries it, and with any projection that
    returns as many coefficients as it is given. *)
Theorem C8_invariant_and_growth (st : Atoms) :
  coeffs_match st ->
  (forall (v : vec) (c : Q),
      (is_empty (currentAtoms st) = false ->
       length v = n_rows (currentAtoms st)) ->
      exists st',
        AddAtom st (colvec v) c = OK st'
        /\ coeffs_match st'
        /\ (is_empty (currentAtoms st) = false ->
            n_cols (currentAtoms st') = S (n_cols (currentAtoms st))
            /\ length (currentCoeffs st') = S (length (currentCoeffs st)))
        /\ (is_empty (currentAtoms st) = true ->
            n_cols (currentAtoms st') = 1%nat
            /\ length (currentCoeffs st') = 1%nat))
  /\ (forall (v : vec) (c : Q) (e : error),
        AddAtom st (colvec v) c = Err e ->
        e = SizeMismatch
        /\ is_empty (currentAtoms st) = false
        /\ length v <> n_rows (currentAtoms st))
  /\ (forall (solve : mat -> vec -> result vec) (F : Q) (f : FuncSq),
        coeffs_match (self (fst (PruneSupport solve F f st))))
  /\ (forall (f : FunctionType) (tau stepSize tolerance : Q) (maxIteration : nat),
        let st' := this (fst (ProjectedGradientEnhancement f tau stepSize
                                maxIteration tolerance st)) in
        coeffs_match st'
        /\ currentAtoms st' = currentAtoms st
        /\ length (currentCoeffs st') = length (currentCoeffs st))
  /\ (forall (f : FunctionType) (tau stepSize tolerance : Q) (maxIteration : nat),
        let st' := this (fst (ProjectedGradientEnhancement_with ProjectionToL1_inf
                                f tau stepSize maxIteration tolerance st)) in
        coeffs_match st'
        /\ currentAtoms st' = currentAtoms st
        /\ length (currentCoeffs st') = length (currentCoeffs st))
  /\ (forall (proj : Q -> vec -> result vec),
        (forall tau c out, proj tau c = OK out -> length out = length c) ->
        forall (f : FunctionType) (tau stepSize tolerance : Q)
               (maxIteration : nat),
          coeffs_match
            (this (fst (ProjectedGradientEnhancement_with proj f tau stepSize
                          maxIteration tolerance st)))).
Proof.
  intro Hinv.
  assert (Hgen : forall (proj : Q -> vec -> result vec),
             (forall tau c out, proj tau c = OK out -> length out = length c) ->
             forall (f : FunctionType) (tau stepSize tolerance : Q)
                    (maxIteration : nat),
               let st' := this (fst (ProjectedGradientEnhancement_with proj f tau
                                       stepSize maxIteration tolerance st)) in
               coeffs_match st'
               /\ currentAtoms st' = currentAtoms st
               /\ length (currentCoeffs st') = length (currentCoeffs st)).
  { intros proj Hproj f tau stepSize tolerance maxIteration st'.
    destruct (refinement_with_frame proj Hproj f tau stepSize tolerance
                maxIteration st) as [Ha Hc].
    fold st' in Ha, Hc. unfold coeffs_match in *.
    split; [congruence|]. split; assumption. }
  split; [|split; [|split; [|split; [|split;
    [exact (Hgen ProjectionToL1_inf ProjectionToL1_inf_length)
    |intros proj Hproj f tau stepSize tolerance maxIteration;
     apply (Hgen proj Hproj)]]]]].
  - intros v c Hconf. unfold AddAtom, insert_cols0.
    destruct (is_empty (currentAtoms st)) eqn:Hemp.
    + eexists. split; [reflexivity|]. split; [reflexivity|].
      split; [discriminate|]. intros _. split; reflexivity.
    + cbn [colvec n_rows]. rewrite (Hconf eq_refl), Nat.eqb_refl.
      cbn [negb andb]. eexists. split; [reflexivity|].
      unfold coeffs_match, n_cols in *.
      cbn [currentAtoms currentCoeffs cols colvec length app].
      split; [congruence|]. split; [|discriminate].
      intros _. split; reflexivity.
  - intros v c e. unfold AddAtom, insert_cols0.
    destruct (is_empty (currentAtoms st)) eqn:Hemp; [discriminate|].
    cbn [colvec n_rows].
    destruct (Nat.eqb_spec (length v) (n_rows (currentAtoms st))) as [E|E].
    + cbn [negb andb]. discriminate.
    + destruct (negb false && _ && _); [|discriminate].
      intro H. injection H as <-. auto.
  - intros solve F f.
    apply (PruneSupport_facts solve F f st). exact Hinv.
  - intros f tau stepSize tolerance maxIteration st'.
    assert (H : currentAtoms st' = currentAtoms st
                /\ length (currentCoeffs st') = length (currentCoeffs st)).
    { subst st'. unfold ProjectedGradientEnhancement.
      destruct (RecoverVector st) as [x|e].
      - pose proof (pge_loop_frame f tau stepSize maxIteration tolerance
                      (S maxIteration) 1 x (Evaluate f x) (mkPge st 0)) as H.
        cbv zeta in H. cbn [this] in H. tauto.
      - cbn. split; reflexivity. }
    destruct H as [Ha Hc]. unfold coeffs_match in *.
    split; [congruence|]. split; assumption.
Qed.

Lemma C8_witness :
  let st := mkAtoms [1] (colvec [1; 2]) in
  (exists st',
      AddAtom st (colvec [3; 4]) 5 = OK st'
      /\ coeffs_match st'
      /\ n_cols (currentAtoms st') = 2%nat
      /\ length (currentCoeffs st') = 2%nat)
  /\ (forall (solve : mat -> vec -> result vec) (F : Q) (f : FuncSq),
        coeffs_match (self (fst (PruneSupport solve F f st)))).
Proof.
  intro st.
  assert (H : coeffs_match st) by reflexivity.
  pose proof (C8_invariant_and_growth st H) as (Hadd & _ & Hprune & _).
  split; [|exact Hprune].
  destruct (Hadd [3; 4] 5 (fun _ => eq_refl)) as (st' & H1 & H2 & H3 & _).
  exists st'. split; [exact H1|]. split; [exact H2|].
  exact (H3 eq_refl).
Defined.





(** C4: when the first trial deletion yields [Fnew > F], [PruneSupport]
    returns with the atoms, the coefficients and the scores equal to what
    they were before the call; and in any pass of the loop a rejected trial
    leaves the stored atoms, coefficients and scores as they were. *)
Theorem C4_rejection_keeps_state (solve : mat -> vec -> result vec) (F : Q)
    (f : FuncSq) (st : Atoms) (sq : vec) (ind : nat) (newAtoms : mat)
    (newCoeffs : vec) (Fnew : Q) :
  init_atomSqTerm f st = OK sq ->
  trial_yields solve f st sq ind newAtoms newCoeffs Fnew ->
  F < Fnew ->
  let r := PruneSupport solve F f st in
  snd r = Return
  /\ self (fst r) = st
  /\ atomSqTerm (fst r) = sq
  /\ (forall s s' : prune_state,
        prune_body solve F f s = (s', OK false) ->
        self s' = self s /\ atomSqTerm s' = atomSqTerm s).
Proof.
  intros Hinit Htrial HF. cbv zeta.
  unfold PruneSupport. rewrite Hinit. cbn [prune_loop].
  rewrite (prune_body_rejects solve F f (mkPrune st sq []) ind newAtoms
             newCoeffs Fnew Htrial HF).
  cbn [fst snd self atomSqTerm trace].
  split; [reflexivity|]. split; [reflexivity|]. split; [reflexivity|].
  intros s s' Hbody. apply prune_body_cases in Hbody.
  destruct Hbody as [_ [(H1 & H2 & _)|(Hno & _)]]; [auto | congruence].
Qed.

Lemma C4_witness :
  let r := PruneSupport solve_le1 0 unit_objective single_atom in
  snd r = Return /\ self (fst r) = single_atom.
Proof.
  assert (Hinit : init_atomSqTerm unit_objective single_atom
                  = OK [(1 # 2) * (1 * 1 + 0) * (1 * 1)]).
  { vm_compute. reflexivity. }
  assert (Htrial : trial_yields solve_le1 unit_objective single_atom
                     [(1 # 2) * (1 * 1 + 0) * (1 * 1)] 0 (mkMat 1 []) []
                     (Evaluate unit_objective [0])).
  { unfold trial_yields. do 6 eexists.
    repeat (split; [vm_compute; reflexivity|]). reflexivity. }
  assert (HF : 0 < Evaluate unit_objective [0]) by reflexivity.
  pose proof (C4_rejection_keeps_state solve_le1 0 unit_objective single_atom
                _ _ _ _ _ Hinit Htrial HF) as H.
  cbv zeta in H. cbv zeta. split; [apply H | apply H].
Defined.

(** C5: when a trial deletion is accepted, that is when the first one is
    ([Fnew <= F]), [PruneSupport] ends with strictly fewer atoms than it
    started with, and the vector recovered from the final atoms and
    coefficients evaluates to at most [F]. *)
Theorem C5_acceptance_within_threshold (solve : mat -> vec -> result vec)
    (F : Q) (f : FuncSq) (st : Atoms) (sq : vec) (ind : nat) (newAtoms : mat)
    (newCoeffs : vec) (Fnew : Q) :
  init_atomSqTerm f st = OK sq ->
  trial_yields solve f st sq ind newAtoms newCoeffs Fnew ->
  Fnew <= F ->
  let r := PruneSupport solve F f st in
  (n_cols (currentAtoms (self (fst r))) < n_cols (currentAtoms st))%nat
  /\ (exists x, RecoverVector (self (fst r)) = OK x /\ Evaluate f x <= F)
  /\ (snd r = Return \/ exists e, snd r = Throw e).
Proof.
  intros Hinit Htrial HF. cbv zeta.
  unfold PruneSupport. rewrite Hinit. cbn [prune_loop].
  rewrite (prune_body_accepts solve F f (mkPrune st sq []) ind newAtoms
             newCoeffs Fnew Htrial HF).
  cbn [self atomSqTerm trace].
  destruct Htrial as (x & tg & cg & gap & an & xnew & _ & _ & _ & _ & _ & Hshed
                      & _ & _ & Hx & ->).
  apply shed_col_n_cols in Hshed. destruct Hshed as [Hn _].
  match goal with
  | |- context [prune_loop solve ?n F f ?s] =>
      pose proof (prune_loop_facts solve F f n s) as H
  end.
  cbv zeta in H. cbn [self currentAtoms] in H.
  destruct H as (_ & _ & H3 & H4 & H5).
  split; [lia|]. split.
  - apply H3. exists xnew. split; [exact Hx | exact HF].
  - match goal with
    | |- snd ?r = _ \/ _ => destruct (snd r) as [|e|] eqn:E
    end.
    + left; reflexivity.
    + right; exists e; reflexivity.
    + exfalso. apply H5; [lia | reflexivity].
Qed.

Lemma C5_witness :
  let r := PruneSupport solve_le1 0 unit_objective twin_atoms in
  (n_cols (currentAtoms (self (fst r))) < n_cols (currentAtoms twin_atoms))%nat
  /\ exists x, RecoverVector (self (fst r)) = OK x
               /\ Evaluate unit_objective x <= 0.
Proof.
  assert (Hinit : exists sq, init_atomSqTerm unit_objective twin_atoms = OK sq).
  { eexists. vm_compute. reflexivity. }
  destruct Hinit as [sq Hinit].
  assert (Htrial : exists ind newAtoms newCoeffs Fnew,
             trial_yields solve_le1 unit_objective twin_atoms sq ind newAtoms
               newCoeffs Fnew /\ Fnew <= 0).
  { vm_compute in Hinit. injection Hinit as <-.
    exists 0%nat, (colvec [1]), [1 # 1], (Evaluate unit_objective [1]).
    split; [|vm_compute; discriminate].
    unfold trial_yields. do 6 eexists.
    repeat (split; [vm_compute; reflexivity|]).
    vm_compute. reflexivity. }
  destruct Htrial as (ind & newAtoms & newCoeffs & Fnew & Htrial & HF).
  pose proof (C5_acceptance_within_threshold solve_le1 0 unit_objective
                twin_atoms sq ind newAtoms newCoeffs Fnew Hinit Htrial HF) as H.
  cbv zeta in H. cbv zeta. split; [apply H | apply H].
Defined.

Lemma one_atom_reaches_refit (f : FuncSq) (st : Atoms) (sq : vec) :
  n_cols (currentAtoms st) = 1%nat ->
  coeffs_match st ->
  init_atomSqTerm f st = OK sq ->
  (forall x, RecoverVector st = OK x ->
             length (Gradient f x) = n_rows (currentAtoms st)) ->
  exists an,
    trial_refits f st sq 0 (mkMat (n_rows (currentAtoms st)) []) an.
Proof.
  intros Hone Hinv Hinit Hgrad.
  destruct st as [coeffs [nr cs]]. unfold coeffs_match, n_cols in *.
  cbn [currentAtoms currentCoeffs cols n_rows] in *.
  destruct cs as [|a [|b cs]]; try discriminate.
  destruct coeffs as [|c [|c' coeffs]]; try discriminate.
  unfold init_atomSqTerm, mat_mul in Hinit.
  cbn [currentAtoms currentCoeffs cols n_rows] in Hinit.
  destruct (Nat.eqb_spec (n_cols (MatrixA f)) nr) as [HA|HA]; [|discriminate].
  apply ewise_length in Hinit. destruct Hinit as [_ Hsq].
  cbn in Hsq. destruct sq as [|q [|q' sq]]; try discriminate.
  assert (Hg : length (Gradient f (lincomb (zeros nr) [a] [c])) = nr).
  { apply (Hgrad _ eq_refl). }
  unfold trial_refits, RecoverVector, mat_vec, trans_mul, shed_col, mat_mul.
  cbn [currentAtoms currentCoeffs cols n_rows n_cols length Nat.eqb].
  eexists. eexists. eexists. eexists. eexists.
  split; [reflexivity|].
  rewrite Hg, Nat.eqb_refl.
  split; [reflexivity|].
  split; [reflexivity|].
  split; [reflexivity|].
  split; [reflexivity|].
  split; [reflexivity|].
  cbn [remove_nth n_rows cols map]. rewrite HA, Nat.eqb_refl. reflexivity.
Qed.

(** C3, as the specification words it, would have every recorded gradient
    evaluation and every refit of a call on a matrix with at least one
    atom. On the one-atom set [single_atom] with threshold [F = 1] the
    first trial hands the refit a matrix without columns, the deletion is
    accepted, the next pass evaluates the gradient on the emptied set, and
    the call ends in the exception of [min] on the empty gap vector. *)
Lemma C3_counterexample :
  let r := PruneSupport solve_le1 1 unit_objective single_atom in
  n_cols (currentAtoms single_atom) = 1%nat
  /\ trace (fst r) = [GradientAt (colvec [1]); Refit (mkMat 1 []);
                      GradientAt (mkMat 1 [])]
  /\ ~ Forall (fun ev => n_cols (event_matrix ev) <> 0%nat) (trace (fst r))
  /\ self (fst r) = mkAtoms [] (mkMat 1 [])
  /\ snd r = Throw EmptyMin.
Proof.
  cbv zeta.
  assert (Htrace : trace (fst (PruneSupport solve_le1 1 unit_objective single_atom))
                   = [GradientAt (colvec [1]); Refit (mkMat 1 []);
                      GradientAt (mkMat 1 [])]).
  { vm_compute. reflexivity. }
  split; [reflexivity|]. split; [exact Htrace|]. split.
  - rewrite Htrace. intro H.
    apply Forall_inv_tail in H. apply Forall_inv in H.
    apply H. reflexivity.
  - split; vm_compute; reflexivity.
Qed.

(** C3, amended: [PruneSupport] has no guard for the last atom. When the
    set holds exactly one atom and the objective has the dimension of the
    atoms, the trial deletion runs the refit on the atom matrix without
    columns; if that deletion is accepted ([Fnew <= F]) the set is left
    without atoms, the next pass evaluates the gradient on it, and the
    call ends in the exception of [min] on the empty gap vector instead of
    returning. *)
Theorem C3_last_atom_unguarded (solve : mat -> vec -> result vec) (F : Q)
    (f : FuncSq) (st : Atoms) (sq : vec) :
  n_cols (currentAtoms st) = 1%nat ->
  coeffs_match st ->
  init_atomSqTerm f st = OK sq ->
  (forall x, length (Gradient f x) = n_rows (currentAtoms st)) ->
  let r := PruneSupport solve F f st in
  let emptied := mkMat (n_rows (currentAtoms st)) [] in
  In (Refit emptied) (trace (fst r))
  /\ (forall ind newAtoms newCoeffs Fnew,
        trial_yields solve f st sq ind newAtoms newCoeffs Fnew ->
        Fnew <= F ->
        self (fst r) = mkAtoms [] emptied
        /\ newAtoms = emptied /\ newCoeffs = []
        /\ In (GradientAt emptied) (trace (fst r))
        /\ snd r = Throw EmptyMin).
Proof.
  intros Hone Hinv Hinit Hgrad. cbv zeta.
  destruct (one_atom_reaches_refit f st sq Hone Hinv Hinit
              (fun x _ => Hgrad x)) as [an Hrefit].
  assert (Hsq : length sq = 1%nat).
  { unfold init_atomSqTerm in Hinit.
    destruct (mat_mul _ _) as [m|e]; [|discriminate].
    apply ewise_length in Hinit. destruct Hinit as [_ Hl].
    unfold square in Hl. rewrite length_map in Hl.
    unfold coeffs_match in Hinv. lia. }
  unfold PruneSupport. rewrite Hinit, Hone. cbn [prune_loop].
  destruct (prune_body solve F f (mkPrune st sq [])) as [s1 r1] eqn:Hbody.
  pose proof (prune_body_refit solve F f (mkPrune st sq []) _ _ _ _ _
                Hrefit Hbody) as Hin.
  split.
  - destruct r1 as [[|]|e]; [|exact Hin|exact Hin].
    destruct (prune_body solve F f s1) as [s2 r2] eqn:Hbody2.
    apply prune_body_cases in Hbody2. destruct Hbody2 as [[evs Hevs] _].
    assert (Hin2 : In (Refit (mkMat (n_rows (currentAtoms st)) [])) (trace s2)).
    { rewrite Hevs. apply in_or_app. left. exact Hin. }
    destruct r2 as [[|]|e]; exact Hin2.
  - intros ind newAtoms newCoeffs Fnew Htrial Hacc.
    assert (Hnew : ind = 0%nat
                   /\ newAtoms = mkMat (n_rows (currentAtoms st)) []
                   /\ newCoeffs = []).
    { destruct Htrial as (x & tg & cg & gap & an' & xnew & _ & _ & _ & _ & _
                          & Hshed & _ & _ & Hx & _).
      unfold shed_col in Hshed. rewrite Hone in Hshed.
      destruct ind as [|ind]; [|discriminate].
      cbn in Hshed. injection Hshed as <-.
      apply mat_vec_conforms in Hx.
      unfold n_cols in Hone, Hx. cbn [cols] in Hx.
      destruct (cols (currentAtoms st)) as [|a [|b l]]; try discriminate.
      cbn in Hx. destruct newCoeffs; [|discriminate]. auto. }
    destruct Hnew as (-> & -> & ->).
    rewrite (prune_body_accepts solve F f (mkPrune st sq []) 0 _
               [] Fnew Htrial Hacc) in Hbody.
    injection Hbody as <- <-.
    destruct sq as [|q [|q' sq]]; try discriminate.
    cbn [self atomSqTerm trace remove_nth app].
    unfold prune_body, bind, modify, gets, lift, ret, emit,
      RecoverVector, mat_vec, trans_mul, ewise.
    cbn [self atomSqTerm trace currentAtoms currentCoeffs n_cols n_rows cols
         length Nat.eqb lincomb map zip_with].
    rewrite Hgrad, Nat.eqb_refl.
    cbn [map length Nat.eqb zip_with min_index fst snd self trace app].
    split; [reflexivity|]. split; [reflexivity|]. split; [reflexivity|].
    split; [|reflexivity].
    right. right. left. reflexivity.
Qed.

Lemma C3_witness :
  let r := PruneSupport solve_le1 1 unit_objective single_atom in
  In (Refit (mkMat 1 [])) (trace (fst r))
  /\ self (fst r) = mkAtoms [] (mkMat 1 [])
  /\ snd r = Throw EmptyMin.
Proof.
  assert (Hone : n_cols (currentAtoms single_atom) = 1%nat) by reflexivity.
  assert (Hinv : coeffs_match single_atom) by reflexivity.
  assert (Hinit : init_atomSqTerm unit_objective single_atom
                  = OK [(1 # 2) * (1 * 1 + 0) * (1 * 1)]).
  { vm_compute. reflexivity. }
  assert (Hgrad : forall x, length (Gradient unit_objective x)
                            = n_rows (currentAtoms single_atom)).
  { intro x. reflexivity. }
  assert (Htrial : trial_yields solve_le1 unit_objective single_atom
                     [(1 # 2) * (1 * 1 + 0) * (1 * 1)] 0 (mkMat 1 []) []
                     (Evaluate unit_objective [0])).
  { unfold trial_yields. do 6 eexists.
    repeat (split; [vm_compute; reflexivity|]). reflexivity. }
  assert (Hacc : Evaluate unit_objective [0] <= 1) by (vm_compute; discriminate).
  pose proof (C3_last_atom_unguarded solve_le1 1 unit_objective single_atom
                _ Hone Hinv Hinit Hgrad) as H.
  cbv zeta in H. destruct H as [Hin Hrest].
  destruct (Hrest _ _ _ _ Htrial Hacc) as (Hself & _ & _ & _ & Hexit).
  cbv zeta. split; [exact Hin|]. split; [exact Hself | exact Hexit].
Defined.

(** ** The projection in binary64 *)

Module Binary64Facts.

Import Floats.

(** A summation order the library may use for [accu]. *)
Definition summation (sum : Binary64.fvec -> float) : Prop :=
  sum = Binary64.accu_seq \/ sum = Binary64.accu_pairs.

(** Whether two vectors of floats differ in their first entry. *)
Definition first_differs (a b : option Binary64.fvec) : bool :=
  match a, b with
  | Some (x :: _), Some (y :: _) => negb (x =? y)%float
  | _, _ => false
  end.

(** With a divisor [rho = 0] the quotient is an infinity and every
    coefficient is thresholded to zero. *)
Lemma division_by_zero_is_infinity :
  Binary64.ProjectionToL1 1 [2%float] = Some [0%float]
  /\ ((2 - 1) / Binary64.of_size_t 0 =? infinity)%float = true.
Proof. split; vm_compute; reflexivity. Qed.

Lemma feasible_unchanged (sum : Binary64.fvec -> float) (tau : float)
    (c : Binary64.fvec) :
  PrimFloat.leb (sum (map PrimFloat.abs c)) tau = true ->
  Binary64.ProjectionToL1_with sum tau c = Some c.
Proof.
  intro H. unfold Binary64.ProjectionToL1_with. rewrite H. reflexivity.
Qed.

Lemma infeasible_thresholded (sum : Binary64.fvec -> float) (tau : float)
    (c : Binary64.fvec) (rho : nat) :
  PrimFloat.leb (sum (map PrimFloat.abs c)) tau = false ->
  Binary64.pivot tau c = Some rho ->
  Binary64.ProjectionToL1_with sum tau c
  = Some (map (Binary64.threshold (Binary64.theta_at tau c rho)) c).
Proof.
  intros H Hscan.
  unfold Binary64.ProjectionToL1_with, Binary64.pivot, Binary64.sorted_abs in *.
  rewrite H, Hscan. reflexivity.
Qed.

(** C1, as worded, has the call return the doubles 0.15, 0 and -0.35. On
    the doubles nearest to 0.7, 0.5 and -0.9 the first component returned
    is [0x1.333333333333p-3], four units in the last place below the
    double 0.15. *)
Lemma C1_counterexample :
  Binary64.ProjectionToL1_with Binary64.accu_pairs 1 Binary64.example_coeffs
    <> Some [0x1.3333333333333p-3; 0; -0x1.6666666666666p-2]%float
  /\ Binary64.ProjectionToL1_with Binary64.accu_seq 1 Binary64.example_coeffs
    <> Some [0x1.3333333333333p-3; 0; -0x1.6666666666666p-2]%float
  /\ (nth 0 (match Binary64.ProjectionToL1 1 Binary64.example_coeffs with
             | Some out => out
             | None => []
             end) 0
      =? 0x1.3333333333333p-3)%float = false.
Proof.
  split; [|split].
  - intro H.
    assert (Hd : first_differs
              (Binary64.ProjectionToL1_with Binary64.accu_pairs 1
                 Binary64.example_coeffs)
              (Some [0x1.3333333333333p-3; 0; -0x1.6666666666666p-2]%float)
            = true) by (vm_compute; reflexivity).
    rewrite H in Hd. vm_compute in Hd. discriminate.
  - intro H.
    assert (Hd : first_differs
              (Binary64.ProjectionToL1_with Binary64.accu_seq 1
                 Binary64.example_coeffs)
              (Some [0x1.3333333333333p-3; 0; -0x1.6666666666666p-2]%float)
            = true) by (vm_compute; reflexivity).
    rewrite H in Hd. vm_compute in Hd. discriminate.
  - vm_compute. reflexivity.
Qed.

(** C1, amended: on the doubles nearest to [0.7, 0.5, -0.9] with
    [tau = 1], for either order of summation, the projection takes the
    infeasible branch, the sorted absolute values are the doubles of
    0.9, 0.7, 0.5 with running sums the doubles of 0.9, 1.6, 2.1, the
    pivot test holds at index 2 so [rho = 2], [theta] is
    [(cum[2] - 1) / 2], the double of 0.55, computed with the divisor
    [rho] and different from the quotient by [rho + 1], and the call
    returns [0x1.333333333333p-3; 0; the double of -0.35]: the middle
    component is the constant zero, the first lies within [2^-50] of the
    double 0.15 without being it. In exact arithmetic the values are
    0.55 and [0.15, 0, -0.35]. *)
Theorem C1_projection_example_binary64 :
  (forall sum, summation sum ->
     PrimFloat.leb (sum (map PrimFloat.abs Binary64.example_coeffs)) 1 = false
     /\ Binary64.ProjectionToL1_with sum 1 Binary64.example_coeffs
        = Some [0x1.333333333333p-3; 0; -0x1.6666666666666p-2]%float)
  /\ Binary64.sorted_abs Binary64.example_coeffs
     = [0x1.ccccccccccccdp-1; 0x1.6666666666666p-1; 0x1p-1]%float
  /\ Binary64.cumsum (Binary64.sorted_abs Binary64.example_coeffs)
     = [0x1.ccccccccccccdp-1; 0x1.999999999999ap+0; 0x1.0cccccccccccdp+1]%float
  /\ Binary64.pivot 1 Binary64.example_coeffs = Some 2%nat
  /\ Binary64.theta_at 1 Binary64.example_coeffs 2 = 0x1.199999999999ap-1%float
  /\ (Binary64.theta_at 1 Binary64.example_coeffs 2
      =? (0x1.0cccccccccccdp+1 - 1) / Binary64.of_size_t (2 + 1))%float = false
  /\ (PrimFloat.abs (0x1.333333333333p-3 - 0x1.3333333333333p-3) <? 0x1p-50)%float
     = true
  /\ (0x1.333333333333p-3 =? 0x1.3333333333333p-3)%float = false
  /\ (nth 2 (cumsum (sort_descend (Arma.abs example_coeffs))) 0 - 1) / of_size_t 2
     == 55 # 100
  /\ (exists out,
        ProjectionToL1 1 example_coeffs = OK out
        /\ vec_eq out [15 # 100; 0; - 35 # 100]
        /\ nth 1 out 1 = 0).
Proof.
  split.
  { intros sum [-> | ->]; split; vm_compute; reflexivity. }
  split; [vm_compute; reflexivity|].
  split; [vm_compute; reflexivity|].
  split; [vm_compute; reflexivity|].
  split; [vm_compute; reflexivity|].
  split; [vm_compute; reflexivity|].
  split; [vm_compute; reflexivity|].
  split; [vm_compute; reflexivity|].
  destruct exact_projection_example
    as (_ & _ & _ & _ & _ & _ & Ht & _ & out & H1 & H2 & H3).
  split; [exact Ht|]. exists out. auto.
Qed.

(** The doubles nearest to 0.2, 0.4, 0.6, 0.7, and to 1.9. *)
Definition drifting_coeffs : Binary64.fvec :=
  [0x1.999999999999ap-3; 0x1.999999999999ap-2; 0x1.3333333333333p-1;
   0x1.6666666666666p-1]%float.
Definition drifting_tau : float := 0x1.e666666666666p+0%float.

(** The doubles nearest to 0.1, 0.2, 0.3, and to 0.6. *)
Definition rounded_coeffs : Binary64.fvec :=
  [0x1.999999999999ap-4; 0x1.999999999999ap-3; 0x1.3333333333333p-2]%float.
Definition rounded_tau : float := 0x1.3333333333333p-1%float.

(** C6, as worded, makes every output of the projection a fixed point.
    On the doubles of [0.2, 0.4, 0.6, 0.7] with [tau] the double of 1.9
    the sum of absolute values rounds above [tau] while the sorted running
    sum rounds to [tau], the pivot is 3 and [theta] is negative: the first
    application enlarges every entry, and the second application changes
    the result of the first, for either order of summation. *)
Lemma C6_counterexample :
  (Binary64.theta_at drifting_tau drifting_coeffs 3 <? 0)%float = true
  /\ first_differs
       (Binary64.twice Binary64.accu_pairs drifting_tau drifting_coeffs)
       (Binary64.ProjectionToL1_with Binary64.accu_pairs drifting_tau
          drifting_coeffs) = true
  /\ first_differs
       (Binary64.twice Binary64.accu_seq drifting_tau drifting_coeffs)
       (Binary64.ProjectionToL1_with Binary64.accu_seq drifting_tau
          drifting_coeffs) = true
  /\ Binary64.twice Binary64.accu_pairs drifting_tau drifting_coeffs
     <> Binary64.ProjectionToL1_with Binary64.accu_pairs drifting_tau
          drifting_coeffs.
Proof.
  split; [vm_compute; reflexivity|].
  split; [vm_compute; reflexivity|].
  split; [vm_compute; reflexivity|].
  intro H.
  assert (Hd : first_differs
                 (Binary64.twice Binary64.accu_pairs drifting_tau drifting_coeffs)
                 (Binary64.ProjectionToL1_with Binary64.accu_pairs drifting_tau
                    drifting_coeffs) = true) by (vm_compute; reflexivity).
  rewrite H in Hd. vm_compute in Hd. discriminate.
Qed.

(** C6, amended: a feasible point is a fixed point. For every summation
    [sum], every [tau] and every vector whose absolute values sum (as
    [sum] rounds them) to at most [tau], the projection returns the vector
    itself, so applying it twice yields what applying it once yields; more
    generally a second application changes nothing whenever the output of
    the first is feasible as [sum] rounds it. In exact arithmetic every
    output of the projection is feasible, so there the projection is
    idempotent wherever it is defined; in binary64 it is not. *)
Theorem C6_feasible_points_are_fixed :
  (forall (sum : Binary64.fvec -> float) (tau : float) (c : Binary64.fvec),
      PrimFloat.leb (sum (map PrimFloat.abs c)) tau = true ->
      Binary64.ProjectionToL1_with sum tau c = Some c
      /\ Binary64.twice sum tau c = Binary64.ProjectionToL1_with sum tau c)
  /\ (forall (sum : Binary64.fvec -> float) (tau : float)
             (c out : Binary64.fvec),
        Binary64.ProjectionToL1_with sum tau c = Some out ->
        PrimFloat.leb (sum (map PrimFloat.abs out)) tau = true ->
        Binary64.twice sum tau c = Some out)
  /\ (forall (tau : Q) (c out : vec),
        ProjectionToL1 tau c = OK out ->
        Arma.accu (Arma.abs out) <= tau /\ ProjectionToL1 tau out = OK out).
Proof.
  split.
  - intros sum tau c H.
    pose proof (feasible_unchanged sum tau c H) as Hc.
    split; [exact Hc|].
    unfold Binary64.twice. rewrite Hc. exact Hc.
  - split.
    { intros sum tau c out H Hout. unfold Binary64.twice. rewrite H.
      exact (feasible_unchanged sum tau out Hout). }
    intros tau c out H. split.
    + exact (ProjectionToL1_feasible_output tau c out H).
    + exact (exact_projection_idempotent tau c out H).
Qed.

Lemma C6_witness :
  (Binary64.ProjectionToL1 1 [0x1p-1; -0x1p-2]%float
   = Some [0x1p-1; -0x1p-2]%float
   /\ Binary64.twice Binary64.accu_pairs 1 [0x1p-1; -0x1p-2]%float
      = Some [0x1p-1; -0x1p-2]%float)
  /\ ProjectionToL1 1 [3000 # 20000; 0; - 7000 # 20000]
     = OK [3000 # 20000; 0; - 7000 # 20000].
Proof.
  split.
  - assert (H : PrimFloat.leb
                  (Binary64.accu_pairs (map PrimFloat.abs [0x1p-1; -0x1p-2]%float))
                  1 = true) by (vm_compute; reflexivity).
    destruct (proj1 C6_feasible_points_are_fixed Binary64.accu_pairs 1%float
                [0x1p-1; -0x1p-2]%float H) as [H1 H2].
    split; [exact H1|]. rewrite H2. exact H1.
  - apply (proj2 (proj2 C6_feasible_points_are_fixed) 1 example_coeffs).
    vm_compute. reflexivity.
Defined.

(** C7, as worded, places the output inside the ball of radius [tau]. On
    the doubles of [0.1, 0.2, 0.3] with [tau] the double of 0.6 the sum of
    absolute values rounds above [tau], the pivot is 2, the sorted running
    sum rounds to [tau] and [theta] is zero: the vector is returned as it
    was, its absolute values still summing to more than [tau], for either
    order of summation. *)
Lemma C7_counterexample :
  Binary64.pivot rounded_tau rounded_coeffs = Some 2%nat
  /\ Binary64.theta_at rounded_tau rounded_coeffs 2 = 0%float
  /\ (forall sum, summation sum ->
        PrimFloat.leb (sum (map PrimFloat.abs rounded_coeffs)) rounded_tau = false
        /\ exists out,
             Binary64.ProjectionToL1_with sum rounded_tau rounded_coeffs = Some out
             /\ out = rounded_coeffs
             /\ PrimFloat.leb (sum (map PrimFloat.abs out)) rounded_tau = false).
Proof.
  split; [vm_compute; reflexivity|].
  split; [vm_compute; reflexivity|].
  intros sum [-> | ->]; (split; [vm_compute; reflexivity|]);
    eexists; (split; [vm_compute; reflexivity|]);
    split; vm_compute; reflexivity.
Qed.

(** C7, amended: on a vector whose absolute values sum to more than [tau]
    and whose pivot search stops at [rho], the projection returns the
    vector thresholded at [theta = (cum[rho] - tau) / rho]. In exact
    arithmetic, for [rho >= 1], this [theta] is at least the standard
    threshold [(cum[rho] - tau) / (rho + 1)] and the absolute values of
    the output sum to at most [tau]; in binary64 the sum of line 167 and
    the running sum of line 171 round apart, [theta] can be zero or
    negative, and the output can lie outside the ball. *)
Theorem C7_thresholded_at_theta :
  (forall (sum : Binary64.fvec -> float) (tau : float) (c : Binary64.fvec)
          (rho : nat),
      PrimFloat.leb (sum (map PrimFloat.abs c)) tau = false ->
      Binary64.pivot tau c = Some rho ->
      Binary64.ProjectionToL1_with sum tau c
      = Some (map (Binary64.threshold (Binary64.theta_at tau c rho)) c))
  /\ (forall (tau : Q) (c : vec) (rho : nat),
        tau < Arma.accu (Arma.abs c) ->
        pivot_scan (sort_descend (Arma.abs c))
          (cumsum (sort_descend (Arma.abs c))) tau
          (length (sort_descend (Arma.abs c))) None = Some rho ->
        (1 <= rho)%nat ->
        let theta :=
          (nth rho (cumsum (sort_descend (Arma.abs c))) 0 - tau) / of_size_t rho in
        ProjectionToL1 tau c = OK (map (threshold theta) c)
        /\ (nth rho (cumsum (sort_descend (Arma.abs c))) 0 - tau)
           / of_size_t (rho + 1) <= theta
        /\ Arma.accu (Arma.abs (map (threshold theta) c)) <= tau).
Proof.
  split.
  - exact infeasible_thresholded.
  - exact exact_projection_inside_ball.
Qed.

Lemma C7_witness :
  Binary64.ProjectionToL1 1 Binary64.example_coeffs
  = Some (map (Binary64.threshold 0x1.199999999999ap-1%float)
            Binary64.example_coeffs)
  /\ Arma.accu (Arma.abs (map (threshold
       ((nth 2 (cumsum (sort_descend (Arma.abs example_coeffs))) 0 - 1)
        / of_size_t 2)) example_coeffs)) <= 1.
Proof.
  split.
  - assert (H1 : PrimFloat.leb
                   (Binary64.accu_pairs (map PrimFloat.abs Binary64.example_coeffs))
                   1 = false) by (vm_compute; reflexivity).
    assert (H2 : Binary64.pivot 1 Binary64.example_coeffs = Some 2%nat)
      by (vm_compute; reflexivity).
    exact (proj1 C7_thresholded_at_theta Binary64.accu_pairs 1%float
             Binary64.example_coeffs 2%nat H1 H2).
  - apply (proj2 C7_thresholded_at_theta 1 example_coeffs 2%nat).
    + vm_compute. reflexivity.
    + vm_compute. reflexivity.
    + lia.
Defined.

End Binary64Facts.

(** * Further properties of the class *)

(** ** When the projection is defined *)


(** ** AddAtom and RecoverVector *)

Lemma is_empty_false_iff (m : mat) :
  is_empty m = false <-> (0 < n_rows m /\ 0 < n_cols m)%nat.
Proof.
  unfold is_empty, n_elem.
  destruct (Nat.eqb_spec (n_rows m * n_cols m) 0) as [E|E]; split; intro H.
  - discriminate.
  - nia.
  - nia.
  - reflexivity.
Qed.

Lemma AddAtom_prepends (st : Atoms) (v : vec) (c : Q) :
  is_empty (currentAtoms st) = false ->
  length v = n_rows (currentAtoms st) ->
  AddAtom st (colvec v) c
  = OK (mkAtoms (c :: currentCoeffs st)
          (mkMat (n_rows (currentAtoms st)) (v :: cols (currentAtoms st)))).
Proof.
  intros Hne Hlen. unfold AddAtom, insert_cols0. rewrite Hne.
  cbn [colvec n_rows cols]. rewrite Hlen, Nat.eqb_refl. cbn [negb andb].
  rewrite Nat.max_id. reflexivity.
Qed.

Lemma AddAtoms_prepends (l : list (vec * Q)) (st : Atoms) :
  is_empty (currentAtoms st) = false ->
  Forall (fun vc => length (fst vc) = n_rows (currentAtoms st)) l ->
  AddAtoms st l
  = OK (mkAtoms (rev (map snd l) ++ currentCoeffs st)
          (mkMat (n_rows (currentAtoms st))
             (rev (map fst l) ++ cols (currentAtoms st)))).
Proof.
  revert st. induction l as [|[v c] l IH]; intros st Hne Hall.
  - cbn. destruct st as [cs [nr cl]]. reflexivity.
  - cbn [AddAtoms]. inversion Hall as [|x y Hv Hl]; subst. cbn [fst] in Hv.
    rewrite (AddAtom_prepends st v c Hne Hv).
    rewrite IH.
    + cbn [currentAtoms currentCoeffs n_rows cols map fst snd rev].
      rewrite <- !app_assoc. reflexivity.
    + apply is_empty_false_iff. apply is_empty_false_iff in Hne.
      unfold n_cols in *. cbn [currentAtoms n_rows cols length]. lia.
    + exact Hl.
Qed.

(** X6: atoms are stored most recent first. Adding atoms of one common
    dimension [d > 0] one after the other to the empty set succeeds and
    leaves the atoms and their coefficients in the reverse of the order in
    which they were added. *)
Theorem X6_insertion_order (d : nat) (l : list (vec * Q)) :
  (0 < d)%nat ->
  Forall (fun vc => length (fst vc) = d) l ->
  l <> [] ->
  AddAtoms empty_Atoms l
  = OK (mkAtoms (rev (map snd l)) (mkMat d (rev (map fst l)))).
Proof.
  intros Hd Hall Hne. destruct l as [|[v c] l]; [congruence|].
  inversion Hall as [|x y Hv Hl]; subst. cbn [fst] in *.
  cbn [AddAtoms]. unfold AddAtom at 1. cbn [empty_Atoms currentAtoms is_empty].
  change (is_empty mat0) with true. cbn iota.
  rewrite AddAtoms_prepends.
  - cbn [currentAtoms currentCoeffs colvec n_rows cols map fst snd rev].
    reflexivity.
  - apply is_empty_false_iff. unfold n_cols.
    cbn [currentAtoms colvec n_rows cols length]. lia.
  - cbn [currentAtoms colvec n_rows]. exact Hl.
Qed.

Lemma X6_witness :
  AddAtoms empty_Atoms [([1; 2], 3); ([4; 5], 6); ([7; 8], 9)]
  = OK (mkAtoms [9; 6; 3] (mkMat 2 [[7; 8]; [4; 5]; [1; 2]])).
Proof.
  apply (X6_insertion_order 2 [([1; 2], 3); ([4; 5], 6); ([7; 8], 9)]).
  - lia.
  - repeat constructor.
  - discriminate.
Defined.

(** X7: [AddAtom] of a column vector fails exactly when atoms are stored
    and the vector has another number of rows than they have; the failure
    is the size exception of [insert_cols], raised before anything is
    stored. *)
Theorem X7_AddAtom_fails_iff_mismatch (st : Atoms) (v : vec) (c : Q) :
  ((exists e, AddAtom st (colvec v) c = Err e)
   <-> (is_empty (currentAtoms st) = false
        /\ length v <> n_rows (currentAtoms st)))
  /\ (forall e, AddAtom st (colvec v) c = Err e -> e = SizeMismatch).
Proof.
  unfold AddAtom, insert_cols0.
  destruct (is_empty (currentAtoms st)) eqn:Hemp.
  - split.
    + split; [intros [e H]; discriminate | intros [H _]; discriminate].
    + intros e H. discriminate.
  - pose proof (proj1 (is_empty_false_iff _) Hemp) as [Hr Hc].
    assert (Ht : nonnull (currentAtoms st) = true).
    { unfold nonnull. destruct (Nat.ltb_spec 0 (n_rows (currentAtoms st)));
        [reflexivity | lia]. }
    assert (Hv : nonnull (colvec v) = true).
    { unfold nonnull. cbn. apply orb_true_r. }
    rewrite Ht, Hv. cbn [colvec n_rows andb].
    destruct (Nat.eqb_spec (length v) (n_rows (currentAtoms st))) as [E|E];
      cbn [negb andb].
    + split.
      * split; [intros [e H]; discriminate | intros [_ H]; contradiction].
      * intros e H. discriminate.
    + split.
      * split; [intros _; split; [reflexivity | exact E]
               | intros _; eexists; reflexivity].
      * intros e H. congruence.
Qed.

(** X8: storage whose atoms have no rows counts as empty, because
    [is_empty] tests the number of elements. [AddAtom] on such a state,
    however many atoms and coefficients it holds, replaces them all by the
    new atom and its coefficient; so an atom without entries is forgotten
    by the next [AddAtom]. *)
Theorem X8_zero_row_storage_replaced (st : Atoms) (v : vec) (c : Q) :
  n_rows (currentAtoms st) = 0%nat ->
  AddAtom st (colvec v) c = OK (mkAtoms [c] (colvec v))
  /\ (forall (c0 : Q) (l : list (vec * Q)),
        AddAtoms empty_Atoms (([], c0) :: (v, c) :: l)
        = AddAtoms empty_Atoms ((v, c) :: l)).
Proof.
  intro Hrows. split.
  - unfold AddAtom, is_empty, n_elem. rewrite Hrows. reflexivity.
  - intros c0 l. cbn [AddAtoms].
    unfold AddAtom at 2. change (is_empty (currentAtoms empty_Atoms)) with true.
    cbn iota. unfold AddAtom at 2.
    change (is_empty (currentAtoms (mkAtoms [c0] (colvec [])))) with true.
    cbn iota. unfold AddAtom at 1.
    change (is_empty (currentAtoms empty_Atoms)) with true.
    reflexivity.
Qed.

Lemma X8_witness :
  AddAtom (mkAtoms [1; 2] (mkMat 0 [[]; []])) (colvec [5; 7]) 3
  = OK (mkAtoms [3] (colvec [5; 7])).
Proof.
  apply (X8_zero_row_storage_replaced (mkAtoms [1; 2] (mkMat 0 [[]; []]))).
  reflexivity.
Defined.

(** ** More on PruneSupport *)

Lemma subseq_refl {A : Type} (l : list A) : subseq l l.
Proof. induction l; constructor; assumption. Qed.

Lemma subseq_trans {A : Type} (a b c : list A) :
  subseq a b -> subseq b c -> subseq a c.
Proof.
  intros Hab Hbc. revert a Hab.
  induction Hbc as [|x b c _ IH|x b c _ IH]; intros a Hab.
  - exact Hab.
  - inversion Hab; subst.
    + constructor. apply IH. assumption.
    + apply subseq_drop. apply IH. assumption.
  - apply subseq_drop. apply IH. exact Hab.
Qed.

Lemma subseq_remove_nth {A : Type} (i : nat) (l : list A) :
  subseq (remove_nth i l) l.
Proof.
  revert i. induction l as [|a l IH]; intros i.
  - destruct i; constructor.
  - destruct i as [|i]; cbn [remove_nth].
    + apply subseq_drop, subseq_refl.
    + apply subseq_keep, IH.
Qed.

Lemma refit_count_app (a b : list event) :
  refit_count (a ++ b) = (refit_count a + refit_count b)%nat.
Proof. unfold refit_count. now rewrite filter_app, length_app. Qed.

Section PruneMore.

Variable solve : mat -> vec -> result vec.
Variables (F : Q) (f : FuncSq).

Ltac body_steps :=
  unfold prune_body, bind, modify, gets, lift, ret, emit;
  cbn [self atomSqTerm trace].

Ltac body_done :=
  let H := fresh in
  intro H; injection H as <- <-; cbn [self trace currentAtoms cols n_rows];
  rewrite ?refit_count_app; cbn [refit_count filter is_refit length];
  repeat split; try apply subseq_refl; try lia; try discriminate.

(** What one pass does to the atoms and to the record of events. *)
Lemma prune_body_more (s s' : prune_state) (r : result bool) :
  prune_body solve F f s = (s', r) ->
  subseq (cols (currentAtoms (self s'))) (cols (currentAtoms (self s)))
  /\ n_rows (currentAtoms (self s')) = n_rows (currentAtoms (self s))
  /\ (refit_count (trace s') <= S (refit_count (trace s)))%nat
  /\ (n_cols (currentAtoms (self s)) = 0%nat ->
      refit_count (trace s') = refit_count (trace s)).
Proof.
  body_steps.
  destruct (RecoverVector (self s)) as [x|e]; cbn; [|body_done].
  destruct (trans_mul _ _) as [tg|e]; cbn; [|body_done].
  destruct (ewise Qmult _ _) as [cg|e]; cbn; [|body_done].
  destruct (ewise Qminus _ _) as [gap|e]; cbn; [|body_done].
  destruct (min_index gap) as [ind|e]; cbn; [|body_done].
  unfold shed_col.
  destruct (Nat.ltb_spec ind (n_cols (currentAtoms (self s)))) as [Hind|Hind];
    cbn; [|body_done].
  destruct (mat_mul _ _) as [an|e]; cbn; [|body_done].
  destruct (solve an _) as [newCoeffs|e]; cbn; [|body_done].
  destruct (mat_vec _ newCoeffs) as [xnew|e]; cbn; [|body_done].
  destruct (Qlt_bool F (Evaluate f xnew)); cbn; [body_done|].
  destruct (shed_row _ ind) as [sq'|e]; cbn; body_done;
    apply subseq_remove_nth.
Qed.

Lemma prune_loop_more (fuel : nat) (s : prune_state) :
  let r := prune_loop solve fuel F f s in
  subseq (cols (currentAtoms (self (fst r)))) (cols (currentAtoms (self s)))
  /\ n_rows (currentAtoms (self (fst r))) = n_rows (currentAtoms (self s))
  /\ (refit_count (trace (fst r))
      <= refit_count (trace s) + n_cols (currentAtoms (self s)))%nat
  /\ (snd r = Return -> (1 <= n_cols (currentAtoms (self (fst r))))%nat).
Proof.
  revert s. induction fuel as [|fuel IH]; intro s; cbn [prune_loop].
  - cbn. split; [apply subseq_refl|]. split; [reflexivity|].
    split; [lia | discriminate].
  - destruct (prune_body solve F f s) as [s' r] eqn:Hbody.
    pose proof (prune_body_more _ _ _ Hbody) as (Hsub & Hrows & Hcnt & Hzero).
    pose proof (prune_body_cases solve F f _ _ _ Hbody) as [_ Hcases].
    pose proof (prune_body_no_atoms solve F f s s' r) as Hnone.
    assert (Hbound : (refit_count (trace s')
                      <= refit_count (trace s) + n_cols (currentAtoms (self s)))%nat).
    { destruct (Nat.eq_dec (n_cols (currentAtoms (self s))) 0) as [Hz|Hz].
      - rewrite (Hzero Hz). lia.
      - lia. }
    destruct r as [[|]|e].
    + destruct Hcases as [(_ & _ & Hno)|(_ & _ & _ & Hn)]; [congruence|].
      specialize (IH s'). cbv zeta in IH.
      destruct IH as (IH1 & IH2 & IH3 & IH4).
      split; [eapply subseq_trans; eassumption|].
      split; [congruence|]. split; [lia | exact IH4].
    + cbn [fst snd]. split; [exact Hsub|]. split; [exact Hrows|].
      split; [exact Hbound|]. intros _.
      destruct Hcases as [(Hself & _ & _)|(Hno & _)]; [|congruence].
      rewrite Hself.
      destruct (Nat.eq_dec (n_cols (currentAtoms (self s))) 0) as [Hz|Hz];
        [|lia].
      destruct (Hnone Hz Hbody) as (_ & [e He] & _). discriminate.
    + cbn [fst snd]. split; [exact Hsub|]. split; [exact Hrows|].
      split; [exact Hbound | discriminate].
Qed.

End PruneMore.

(** X10: [PruneSupport] always ends, although its loop has no bound: on a
    set of [k] atoms it runs the least-squares refit at most [k] times and
    then has returned or thrown. *)
Theorem X10_PruneSupport_ends (solve : mat -> vec -> result vec) (F : Q)
    (f : FuncSq) (st : Atoms) :
  let r := PruneSupport solve F f st in
  (snd r = Return \/ exists e, snd r = Throw e)
  /\ (refit_count (trace (fst r)) <= n_cols (currentAtoms st))%nat.
Proof.
  cbv zeta. split.
  - pose proof (PruneSupport_facts solve F f st) as H. cbv zeta in H.
    destruct H as (_ & _ & Hns).
    destruct (snd (PruneSupport solve F f st)) as [|e|].
    + left; reflexivity.
    + right; exists e; reflexivity.
    + congruence.
  - unfold PruneSupport. destruct (init_atomSqTerm f st) as [sq|e].
    + pose proof (prune_loop_more solve F f (S (n_cols (currentAtoms st)))
                    (mkPrune st sq [])) as H.
      cbv zeta in H. cbn [self trace] in H.
      destruct H as (_ & _ & H & _). exact H.
    + cbn. lia.
Qed.

(** X11: [PruneSupport] only ever removes atoms. However the call ends,
    the atoms left are atoms of the set it was called on, unaltered and in
    their former order, and the number of rows is unchanged. *)
Theorem X11_PruneSupport_keeps_a_subsequence (solve : mat -> vec -> result vec)
    (F : Q) (f : FuncSq) (st : Atoms) :
  let st' := self (fst (PruneSupport solve F f st)) in
  subseq (cols (currentAtoms st')) (cols (currentAtoms st))
  /\ n_rows (currentAtoms st') = n_rows (currentAtoms st).
Proof.
  cbv zeta. unfold PruneSupport. destruct (init_atomSqTerm f st) as [sq|e].
  - pose proof (prune_loop_more solve F f (S (n_cols (currentAtoms st)))
                  (mkPrune st sq [])) as H.
    cbv zeta in H. cbn [self] in H. tauto.
  - cbn. split; [apply subseq_refl | reflexivity].
Qed.

(** X12: a normal return of [PruneSupport] leaves at least one atom; a call
    that deletes the last atom, and a call on a set without atoms, end in
    an exception, the latter with the object untouched. *)
Theorem X12_PruneSupport_never_returns_empty (solve : mat -> vec -> result vec)
    (F : Q) (f : FuncSq) (st : Atoms) :
  let r := PruneSupport solve F f st in
  (snd r = Return -> (1 <= n_cols (currentAtoms (self (fst r))))%nat)
  /\ (n_cols (currentAtoms (self (fst r))) = 0%nat -> exists e, snd r = Throw e)
  /\ (n_cols (currentAtoms st) = 0%nat -> self (fst r) = st).
Proof.
  cbv zeta.
  assert (Hret : snd (PruneSupport solve F f st) = Return ->
                 (1 <= n_cols (currentAtoms
                                 (self (fst (PruneSupport solve F f st)))))%nat).
  { unfold PruneSupport. destruct (init_atomSqTerm f st) as [sq|e].
    - pose proof (prune_loop_more solve F f (S (n_cols (currentAtoms st)))
                    (mkPrune st sq [])) as H.
      cbv zeta in H. tauto.
    - cbn. discriminate. }
  split; [exact Hret|]. split.
  - intro Hz.
    pose proof (PruneSupport_facts solve F f st) as H. cbv zeta in H.
    destruct H as (_ & _ & Hns).
    destruct (snd (PruneSupport solve F f st)) as [|e|] eqn:E.
    + specialize (Hret eq_refl). lia.
    + exists e; reflexivity.
    + congruence.
  - intro Hz. unfold PruneSupport. destruct (init_atomSqTerm f st) as [sq|e].
    + rewrite Hz. cbn [prune_loop].
      destruct (prune_body solve F f (mkPrune st sq [])) as [s' r] eqn:Hbody.
      apply prune_body_no_atoms in Hbody; [|exact Hz].
      destruct Hbody as (Hself & [e ->] & _). exact Hself.
    + reflexivity.
Qed.

(** ** More on ProjectedGradientEnhancement *)

(** X13: with [maxIteration <= 1] the refinement does nothing: the loop
    body is not entered and the object is left as it was. The call returns
    when the coefficients match the atoms in number, and otherwise ends in
    the size exception of the initial [RecoverVector]. *)
Theorem X13_no_iteration_no_change (f : FunctionType) (tau stepSize tolerance : Q)
    (maxIteration : nat) (st : Atoms) :
  (maxIteration <= 1)%nat ->
  let r := ProjectedGradientEnhancement f tau stepSize maxIteration tolerance st in
  fst r = mkPge st 0
  /\ (coeffs_match st -> snd r = Return)
  /\ (~ coeffs_match st -> snd r = Throw SizeMismatch).
Proof.
  intros Hm. cbv zeta.
  unfold ProjectedGradientEnhancement, RecoverVector, mat_vec, coeffs_match.
  destruct (Nat.eqb_spec (n_cols (currentAtoms st)) (length (currentCoeffs st)))
    as [E|E].
  - cbn [pge_loop].
    destruct (Nat.ltb_spec 1 maxIteration) as [Hlt|_]; [lia|].
    cbn. split; [reflexivity|]. split; [reflexivity|]. intro H. congruence.
  - cbn. split; [reflexivity|]. split; [intro H; congruence | reflexivity].
Qed.

Lemma X13_witness :
  ProjectedGradientEnhancement unit_objective 1 1 1 1 twin_atoms
  = (mkPge twin_atoms 0, Return).
Proof.
  assert (Hm : (1 <= 1)%nat) by lia.
  pose proof (X13_no_iteration_no_change unit_objective 1 1 1 1 twin_atoms Hm)
    as H.
  cbv zeta in H. destruct H as (H1 & H2 & _).
  rewrite (surjective_pairing (ProjectedGradientEnhancement _ _ _ _ _ _)).
  rewrite H1, H2; reflexivity.
Defined.

(** ** The coefficients left by PruneSupport *)

Section PruneRefit.

Variable solve : mat -> vec -> result vec.
Variables (F : Q) (f : FuncSq).

Lemma prune_body_refitted (s s' : prune_state) (r : result bool) :
  prune_body solve F f s = (s', r) ->
  self s' = self s \/ refitted solve f (self s').
Proof.
  unfold prune_body, bind, modify, gets, lift, ret, emit.
  cbn [self atomSqTerm trace].
  destruct (RecoverVector (self s)) as [x|e]; cbn;
    [|intro H; injection H as <- _; left; reflexivity].
  destruct (trans_mul _ _) as [tg|e]; cbn;
    [|intro H; injection H as <- _; left; reflexivity].
  destruct (ewise Qmult _ _) as [cg|e]; cbn;
    [|intro H; injection H as <- _; left; reflexivity].
  destruct (ewise Qminus _ _) as [gap|e]; cbn;
    [|intro H; injection H as <- _; left; reflexivity].
  destruct (min_index gap) as [ind|e]; cbn;
    [|intro H; injection H as <- _; left; reflexivity].
  destruct (shed_col _ ind) as [newAtoms|e]; cbn;
    [|intro H; injection H as <- _; left; reflexivity].
  destruct (mat_mul _ newAtoms) as [an|e] eqn:Han; cbn;
    [|intro H; injection H as <- _; left; reflexivity].
  destruct (solve an _) as [newCoeffs|e] eqn:Hsolve; cbn;
    [|intro H; injection H as <- _; left; reflexivity].
  destruct (mat_vec newAtoms newCoeffs) as [xnew|e]; cbn;
    [|intro H; injection H as <- _; left; reflexivity].
  destruct (Qlt_bool F (Evaluate f xnew)); cbn;
    [intro H; injection H as <- _; left; reflexivity|].
  destruct (shed_row _ ind) as [sq'|e]; cbn;
    intro H; injection H as <- _; right; exists an; cbn; auto.
Qed.

Lemma prune_loop_refitted (fuel : nat) (s : prune_state) :
  self (fst (prune_loop solve fuel F f s)) = self s
  \/ refitted solve f (self (fst (prune_loop solve fuel F f s))).
Proof.
  revert s. induction fuel as [|fuel IH]; intro s; cbn [prune_loop].
  - left. reflexivity.
  - destruct (prune_body solve F f s) as [s' r] eqn:Hbody.
    apply prune_body_refitted in Hbody.
    destruct r as [[|]|e]; cbn [fst]; try exact Hbody.
    destruct (IH s') as [Hsame|Href]; [|right; exact Href].
    rewrite Hsame. exact Hbody.
Qed.

End PruneRefit.

(** X15: whenever [PruneSupport] has changed the object, the coefficients
    it leaves are the solver's refit for the atoms it leaves: the solution
    the solver gave for [MatrixA * atoms] against [Vectorb]. *)
Theorem X15_pruned_coefficients_are_refit (solve : mat -> vec -> result vec)
    (F : Q) (f : FuncSq) (st : Atoms) :
  let st' := self (fst (PruneSupport solve F f st)) in
  st' = st \/ refitted solve f st'.
Proof.
  cbv zeta. unfold PruneSupport. destruct (init_atomSqTerm f st) as [sq|e].
  - apply (prune_loop_refitted solve F f _ (mkPrune st sq [])).
  - left. reflexivity.
Qed.
